(** * DIO timing calibration of the ZI HDAWG8 driver

    A shallow embedding of the calibration helpers of
    [pycqed/instrument_drivers/physical_instruments/ZurichInstruments/ZI_HDAWG8.py]:
    [_get_edges], [_is_dio_strb_symmetric], [_analyze_dio_data],
    [_set_dio_delay], [_find_valid_delays], [_ensure_symmetric_strobe] and
    [calibrate_dio_protocol].

    Python integers are unbounded, so they are modelled by [Z]; the bit
    operators [&], [|], [^], [~] and [>>] agree with [Z.land], [Z.lor],
    [Z.lxor], [Z.lnot] and [Z.shiftr] on all of [Z] (two's complement with
    an infinite sign extension).  Shifting by a negative count raises
    [ValueError] in Python, which is modelled explicitly. *)

From Stdlib Require Import Ascii DecimalString.
From stdpp Require Import base numbers list strings gmap sets sorting.

Local Open Scope Z_scope.

(** ** Outcomes of Python code *)

Inductive exn : Type :=
| ValueError
| TypeError
| IndexError
| ZeroDivisionError
| UnboundLocalError.

(** A call returns a value, raises, or (for the one unbounded [while] loop,
    which is run with a step budget) exhausts its budget. *)
Inductive outcome (A : Type) : Type :=
| Ret (a : A)
| Raise (e : exn)
| OutOfFuel.
Arguments Ret {A} a.
Arguments Raise {A} e.
Arguments OutOfFuel {A}.

Definition obind {A B} (m : outcome A) (k : A -> outcome B) : outcome B :=
  match m with
  | Ret a => k a
  | Raise e => Raise e
  | OutOfFuel => OutOfFuel
  end.

Global Instance outcome_ret : MRet outcome := @Ret.
Global Instance outcome_bind : MBind outcome := fun A B k m => obind m k.

(** ** Python integer primitives *)

(** [a << n] *)
Definition py_lshift (a n : Z) : outcome Z :=
  if n <? 0 then Raise ValueError else Ret (Z.shiftl a n).

(** [a >> n] *)
Definition py_rshift (a n : Z) : outcome Z :=
  if n <? 0 then Raise ValueError else Ret (Z.shiftr a n).

(** Truth value of an integer ([False] is [0], [True] is [1]). *)
Definition truthy (z : Z) : bool := negb (z =? 0).

(** [a % b] (the result has the sign of [b], as [Z.modulo]) *)
Definition py_mod (a b : Z) : outcome Z :=
  if b =? 0 then Raise ZeroDivisionError else Ret (a `mod` b).

(** [len(l)] *)
Definition len {A} (l : list A) : Z := Z.of_nat (length l).

(** [x in l] *)
Definition py_in (x : Z) (l : list Z) : bool := bool_decide (x ∈ l).

(** [l.index(x)]: position of the first occurrence *)
Fixpoint py_index (l : list Z) (x : Z) : outcome Z :=
  match l with
  | [] => Raise ValueError
  | y :: l' => if x =? y then Ret 0 else i ← py_index l' x; Ret (i + 1)
  end.

(** [l[i]], negative subscripts counting from the end *)
Definition py_getitem (l : list Z) (i : Z) : outcome Z :=
  let j := if i <? 0 then i + len l else i in
  if j <? 0 then Raise IndexError
  else match l !! Z.to_nat j with
       | Some x => Ret x
       | None => Raise IndexError
       end.

(** [set.intersection( *sets)] *)
Definition py_set_intersection (sets : list (gset Z)) : outcome (gset Z) :=
  match sets with
  | [] => Raise TypeError
  | s :: sets' => Ret (foldl (∩) s sets')
  end.

(** [max(s)] *)
Definition py_max (s : gset Z) : outcome Z :=
  match elements s with
  | [] => Raise ValueError
  | x :: l => Ret (foldl Z.max x l)
  end.

(** ** [_get_edges] (lines 782-792) *)

Definition _get_edges (value last_value mask : Z) : Z * Z :=
  let changed := Z.lxor value last_value in
  let re := Z.land (Z.land changed value) mask in
  let fe := Z.land (Z.land changed (Z.lnot value)) mask in
  (re, fe).

(** ** [_analyze_dio_data] (lines 842-894) *)

Section analyze.
Variables (strb_mask strb_slope vld_mask vld_polarity cw_mask cw_shift : Z).

(** Body of the [for n, d in enumerate(data)] loop up to, and excluding,
    the final [last_d = d].  The loop variables [strb_re], [strb_fe], ...
    hold either a Python [bool] or the integer returned by [_get_edges];
    both are integers to Python. *)
Definition analyze_body (n d : Z) (last_d : option Z)
    (codewords timing_violations : list Z) : outcome (list Z * list Z) :=
  if 0 <? n then
    ld ← match last_d with Some ld => Ret ld | None => Raise TypeError end;
    let '(strb_re, strb_fe) :=
      if strb_slope =? 0 then (1, 1)
      else if strb_slope =? 1 then (fst (_get_edges d ld strb_mask), 0)
      else if strb_slope =? 2 then (0, snd (_get_edges d ld strb_mask))
      else _get_edges d ld strb_mask in
    let '(vld_re, vld_fe) :=
      if negb (vld_polarity =? 0) then _get_edges d ld vld_mask
      else (0, 0) in
    '(d_re, d_fe) ←
      (if negb (cw_mask =? 0)
       then m ← py_lshift cw_mask cw_shift; Ret (_get_edges d ld m)
       else Ret (0, 0));
    let vld_active :=
      (truthy (Z.land vld_polarity 1) && (Z.land d vld_mask =? 0))
      || (truthy (Z.land vld_polarity 2) && negb (Z.land d vld_mask =? 0)) in
    sh ← py_rshift d cw_shift;
    let codeword := Z.land sh cw_mask in
    let strb := truthy strb_re || truthy strb_fe in
    let timing_violations :=
      if strb && (truthy vld_re || truthy vld_fe)
      then timing_violations ++ [n]
      else if strb && (truthy d_re || truthy d_fe)
      then timing_violations ++ [n]
      else timing_violations in
    let codewords :=
      if strb && vld_active then codewords ++ [codeword] else codewords in
    Ret (codewords, timing_violations)
  else Ret (codewords, timing_violations).

Fixpoint analyze_loop (data : list Z) (n : Z) (last_d : option Z)
    (codewords timing_violations : list Z) : outcome (list Z * list Z) :=
  match data with
  | [] => Ret (codewords, timing_violations)
  | d :: data' =>
      '(codewords, timing_violations) ←
        analyze_body n d last_d codewords timing_violations;
      analyze_loop data' (n + 1) (Some d) codewords timing_violations
  end.

Definition _analyze_dio_data (data : list Z) : outcome (list Z * list Z) :=
  analyze_loop data 0 None [] [].
End analyze.

Example analyze_sample :
  _analyze_dio_data 1 1 2 2 7 2 [0; 2+4; 2+4+1; 2+8; 2+8+1; 8; 1]
  = Ret ([1; 2], [6]).
Proof. reflexivity. Qed.

(** ** [_is_dio_strb_symmetric] (lines 795-839) *)

(** Local variables of the loop over the samples, for one strobe bit. *)
Record strb_state : Type := StrbState {
  count_low : bool;
  count_high : bool;
  strobe_low : Z;
  strobe_high : Z;
  last_strobe : option bool
}.

Definition strb_init : strb_state :=
  {| count_low := false; count_high := false;
     strobe_low := 0; strobe_high := 0; last_strobe := None |}.

(** One iteration of [for n, d in enumerate(data)]: [None] when the
    iteration sets [count_ok = False] and breaks. *)
Definition strb_step (strobe_mask : Z) (st : strb_state) (d : Z)
    : option strb_state :=
  let curr_strobe := negb (Z.land d strobe_mask =? 0) in
  st1 ← (if count_high st then
           if curr_strobe
           then Some {| count_low := count_low st; count_high := count_high st;
                        strobe_low := strobe_low st;
                        strobe_high := strobe_high st + 1;
                        last_strobe := last_strobe st |}
           else if (0 <? strobe_low st)
                   && negb (strobe_low st =? strobe_high st)
                then None else Some st
         else Some st);
  st2 ← (if count_low st1 then
           if negb curr_strobe
           then Some {| count_low := count_low st1; count_high := count_high st1;
                        strobe_low := strobe_low st1 + 1;
                        strobe_high := strobe_high st1;
                        last_strobe := last_strobe st1 |}
           else if (0 <? strobe_high st1)
                   && negb (strobe_low st1 =? strobe_high st1)
                then None else Some st1
         else Some st1);
  let st3 :=
    match last_strobe st2 with
    | Some last =>
        if curr_strobe && negb last
        then {| count_low := false; count_high := true;
                strobe_low := strobe_low st2; strobe_high := 0;
                last_strobe := last_strobe st2 |}
        else if negb curr_strobe && last
        then {| count_low := true; count_high := false;
                strobe_low := 0; strobe_high := strobe_high st2;
                last_strobe := last_strobe st2 |}
        else st2
    | None => st2
    end in
  Some {| count_low := count_low st3; count_high := count_high st3;
          strobe_low := strobe_low st3; strobe_high := strobe_high st3;
          last_strobe := Some curr_strobe |}.

(** The loop over the samples: [true] when it runs to the end with
    [count_ok] still set. *)
Fixpoint strb_loop (strobe_mask : Z) (st : strb_state) (data : list Z) : bool :=
  match data with
  | [] => true
  | d :: data' =>
      match strb_step strobe_mask st d with
      | Some st' => strb_loop strobe_mask st' data'
      | None => false
      end
  end.

Fixpoint _is_dio_strb_symmetric (data : list Z) (bits : list Z) : outcome bool :=
  match bits with
  | [] => Ret true
  | bit :: bits' =>
      strobe_mask ← py_lshift 1 bit;
      if strb_loop strobe_mask strb_init data
      then _is_dio_strb_symmetric data bits'
      else Ret false
  end.

Example symmetric_sample :
  _is_dio_strb_symmetric [1;0;0;0;1;1;1;0] [0] = Ret true
  /\ _is_dio_strb_symmetric [1;0;0;0;1;1;0] [0] = Ret false.
Proof. split; reflexivity. Qed.

(** ** The instrument

    The driver talks to the instrument through [self._dev] (a
    [zishell] device, not part of these sources) and prints to standard
    output.  A run is modelled by the sequence of events it performs.  The
    instrument is taken as a parameter: it answers every read from the
    events performed so far, which covers any deterministic instrument. *)

(** A value substituted into a format string. *)
Inductive pyval : Type :=
| PInt (z : Z)
| PInts (l : list Z)
| PSet (s : gset Z).

Inductive event : Type :=
| EvGeti (path : string) (v : Z)          (* [self._dev.geti(path)] returned [v] *)
| EvSeti (path : string) (v : Z)          (* [self._dev.seti(path, v)] *)
| EvGetv (path : string) (data : list Z)  (* [self._dev.getv(path)] returned [data] *)
| EvSetParam (name : string) (v : Z)      (* [self.<name>(v)] *)
| EvSleep (seconds : Z)                   (* [time.sleep(seconds)] *)
| EvPrint (text : string) (args : list pyval).
    (* [print(...)]: the text with the values put into it, not rendered *)

Record device : Type := Device {
  geti_reply : list event -> string -> Z;
  getv_reply : list event -> string -> list Z
}.

(** A computation reads the history of events and returns its outcome with
    the events it adds. *)
Definition dio (A : Type) : Type := list event -> outcome A * list event.

Definition ret {A} (a : A) : dio A := fun _ => (Ret a, []).

Definition dio_bind {A B} (m : dio A) (k : A -> dio B) : dio B :=
  fun h =>
    match m h with
    | (Ret a, o1) => let '(r, o2) := k a (h ++ o1) in (r, o1 ++ o2)
    | (Raise e, o1) => (Raise e, o1)
    | (OutOfFuel, o1) => (OutOfFuel, o1)
    end.

Global Instance dio_ret : MRet dio := @ret.
Global Instance dio_mbind : MBind dio := fun A B k m => dio_bind m k.

Definition lift {A} (o : outcome A) : dio A := fun _ => (o, []).

Definition emit (e : event) : dio () := fun _ => (Ret (), [e]).

Definition print (text : string) (args : list pyval) : dio () :=
  emit (EvPrint text args).

(** [if verbose: print(...)] *)
Definition vprint (verbose : bool) (text : string) (args : list pyval) : dio () :=
  if verbose then print text args else ret ().

Fixpoint for_each {A} (l : list A) (body : A -> dio ()) : dio () :=
  match l with
  | [] => ret ()
  | x :: l' => body x;; for_each l' body
  end.

(** [str(z)] *)
Definition str (z : Z) : string := NilZero.string_of_int (Z.to_int z).

(** [fmt.format(z)] for a format with one [{}] field. *)
Fixpoint format1 (fmt : string) (z : Z) : string :=
  match fmt with
  | String "{"%char (String "}"%char rest) => str z +:+ rest
  | String c rest => String c (format1 rest z)
  | EmptyString => EmptyString
  end.

Example format1_sample :
  format1 "awgs/{}/dio/delay/index" 3 = "awgs/3/dio/delay/index"
  /\ str (-12) = "-12" /\ str 0 = "0".
Proof. repeat split; reflexivity. Qed.

Section driver.
Variable dev : device.

Definition geti (path : string) : dio Z :=
  fun h => let v := geti_reply dev h path in (Ret v, [EvGeti path v]).

Definition seti (path : string) (v : Z) : dio () := emit (EvSeti path v).

Definition getv (path : string) : dio (list Z) :=
  fun h => let data := getv_reply dev h path in (Ret data, [EvGetv path data]).

(** *** [_set_dio_delay] (lines 747-776) *)

Definition _set_dio_delay (awg strb_mask data_mask delay : Z) : dio () :=
  (if delay <? 0 then print "WARNING: Clamping delay to 0" [] else ret ());;
  delay ← (if 6 <? delay
           then print "WARNING: Clamping delay to 6" [];; ret 6
           else ret delay);
  let strb_delay := 0 in
  let data_delay := 0 in
  let '(strb_delay, data_delay) :=
    if 3 <? delay then (delay - 3, data_delay) else (strb_delay, 3 - delay) in
  for_each (seqZ 0 32) (fun i =>
    seti (format1 "awgs/{}/dio/delay/index" awg) i;;
    if truthy (Z.land strb_mask (Z.shiftl 1 i))
    then seti (format1 "awgs/{}/dio/delay/value" awg) strb_delay
    else if truthy (Z.land data_mask (Z.shiftl 1 i))
    then seti (format1 "awgs/{}/dio/delay/value" awg) data_delay
    else seti (format1 "awgs/{}/dio/delay/value" awg) 0).

(** *** [_find_valid_delays] (lines 649-744) *)

Section find_valid_delays.
Variables (awg : Z) (expected_sequence : list Z) (verbose : bool).
Variables (vld_mask vld_polarity strb_mask strb_slope cw_mask cw_shift : Z).

(** One capture and its analysis. *)
Definition capture : dio (list Z * list Z) :=
  data ← getv ("awgs/" +:+ str awg +:+ "/dio/data");
  lift (_analyze_dio_data strb_mask strb_slope vld_mask vld_polarity
          cw_mask cw_shift data).

(** [while (cw_mask != 0) and len(codewords) == 0: ...].  The loop is
    left by its [break] once [timeout_cnt] exceeds 5; [budget] only makes
    the recursion structural and is never exhausted when it starts at
    [6 - timeout_cnt] (lemma [retry_loop_spec]). *)
Fixpoint retry_loop (budget : nat) (timeout_cnt : Z)
    (codewords timing_violations : list Z) : dio (list Z * list Z) :=
  if negb (cw_mask =? 0) && (len codewords =? 0) then
    if 5 <? timeout_cnt then ret (codewords, timing_violations)
    else
      match budget with
      | O => lift OutOfFuel
      | S budget' =>
          vprint verbose "WARNING: No codewords detected, trying again!" [];;
          '(codewords, timing_violations) ← capture;
          retry_loop budget' (timeout_cnt + 1) codewords timing_violations
      end
  else ret (codewords, timing_violations).

(** [for n, codeword in enumerate(codewords)]: the value of
    [valid_sequence] when the loop is left.  [index] is unbound until
    the first iteration has assigned it. *)
Fixpoint check_loop (all_codewords codewords : list Z) (n : Z)
    (index : option Z) : dio bool :=
  match codewords with
  | [] => ret true
  | codeword :: codewords' =>
      if n =? 0 then
        if negb (py_in codeword expected_sequence) then
          vprint verbose
            "WARNING: Codeword {} with value {} not in expected sequence {}!"
            [PInt n; PInt codeword; PInts expected_sequence];;
          vprint verbose "INFO   : Detected codeword sequence: {}"
            [PInts all_codewords];;
          ret false
        else
          index ← lift (py_index expected_sequence codeword);
          check_loop all_codewords codewords' (n + 1) (Some index)
      else
        last_index ← lift (match index with
                           | Some i => Ret i
                           | None => Raise UnboundLocalError
                           end);
        index ← lift (py_mod (last_index + 1) (len expected_sequence));
        expected ← lift (py_getitem expected_sequence index);
        if negb (codeword =? expected) then
          (if verbose then
             prev ← lift (py_getitem expected_sequence last_index);
             print "WARNING: Codeword {} with value {} not expected to follow codeword {} in expected sequence {}!"
               [PInt n; PInt codeword; PInt prev; PInts expected_sequence]
           else ret ());;
          vprint verbose "INFO   : Detected codeword sequence: {}"
            [PInts all_codewords];;
          ret false
        else check_loop all_codewords codewords' (n + 1) (Some index)
  end.

(** Body of [for delay in range(0, 7)]; [continue] returns
    [valid_delays] unchanged. *)
Definition delay_body (valid_delays : list Z) (delay : Z) : dio (list Z) :=
  vprint verbose "INFO   : Testing delay {} on AWG {}..." [PInt delay; PInt awg];;
  m ← lift (py_lshift cw_mask cw_shift);
  _set_dio_delay awg strb_mask (Z.lor m vld_mask) delay;;
  '(codewords, timing_violations) ← capture;
  let timeout_cnt := 0 in
  '(codewords, timing_violations) ←
    retry_loop 6 timeout_cnt codewords timing_violations;
  if negb (cw_mask =? 0) && (len codewords =? 0) then
    vprint verbose "WARNING: No codewords detected on AWG {} for delay {}"
      [PInt awg; PInt delay];;
    ret valid_delays
  else if negb (len timing_violations =? 0) then
    vprint verbose "WARNING: Timing violation detected on AWG {} for delay {}!"
      [PInt awg; PInt delay];;
    ret valid_delays
  else
    valid_sequence ← check_loop codewords codewords 0 None;
    if valid_sequence : bool then ret (valid_delays ++ [delay])
    else ret valid_delays.

Fixpoint delay_loop (delays : list Z) (valid_delays : list Z) : dio (list Z) :=
  match delays with
  | [] => ret valid_delays
  | delay :: delays' =>
      valid_delays ← delay_body valid_delays delay;
      delay_loop delays' valid_delays
  end.
End find_valid_delays.

Definition _find_valid_delays (awg : Z) (expected_sequence : list Z)
    (verbose : bool) : dio (gset Z) :=
  vprint verbose "INFO   : Finding valid delays for AWG {}" [PInt awg];;
  i ← geti (format1 "awgs/{}/dio/valid/index" awg);
  vld_mask ← lift (py_lshift 1 i);
  vld_polarity ← geti (format1 "awgs/{}/dio/valid/polarity" awg);
  i ← geti (format1 "awgs/{}/dio/strobe/index" awg);
  strb_mask ← lift (py_lshift 1 i);
  strb_slope ← geti (format1 "awgs/{}/dio/strobe/slope" awg);
  cw_mask ← geti (format1 "awgs/{}/dio/mask/value" awg);
  cw_shift ← geti (format1 "awgs/{}/dio/mask/shift" awg);
  (if verbose then
     print "INFO   : vld_mask     = 0x{:08x}" [PInt vld_mask];;
     print "INFO   : vld_polarity = {}" [PInt vld_polarity];;
     print "INFO   : strb_mask    = 0x{:08x}" [PInt strb_mask];;
     print "INFO   : strb_slope   = {}" [PInt strb_slope];;
     print "INFO   : cw_mask      = 0x{:08x}" [PInt cw_mask];;
     print "INFO   : cw_shift     = {}" [PInt cw_shift]
   else ret ());;
  valid_delays ←
    delay_loop awg expected_sequence verbose
      vld_mask vld_polarity strb_mask strb_slope cw_mask cw_shift
      (seqZ 0 7) [];
  vprint verbose "INFO   : Found valid delays of {}" [PInts valid_delays];;
  ret (list_to_set valid_delays).

(** *** [_ensure_symmetric_strobe] (lines 592-647) *)

(** [enables = 4*[0]], then for each AWG: save its enable flag and
    disable it. *)
Fixpoint save_enables (awgs : list Z) (enables : list Z) : dio (list Z) :=
  match awgs with
  | [] => ret enables
  | awg :: awgs' =>
      v ← geti (format1 "awgs/{}/enable" awg);
      let enables := <[Z.to_nat awg := v]> enables in
      seti (format1 "awgs/{}/enable" awg) 0;;
      save_enables awgs' enables
  end.

Definition resync (verbose : bool) : dio () :=
  vprint verbose "INFO   : Strobe bit(s) are not sampled symmetrically" [];;
  vprint verbose "INFO   :   Disabling AWG's" [];;
  enables ← save_enables (seqZ 0 4) (replicate 4 0);
  vprint verbose "INFO   :   Switching to internal clock" [];;
  emit (EvSetParam "system_clocks_referenceclock_source" 0);;
  emit (EvSleep 5);;
  vprint verbose "INFO   :   Switching to external clock" [];;
  emit (EvSetParam "system_clocks_referenceclock_source" 1);;
  emit (EvSleep 5);;
  vprint verbose "INFO   :   Enabling AWG's" [];;
  for_each (seqZ 0 4) (fun awg =>
    v ← lift (py_getitem enables awg);
    seti (format1 "awgs/{}/enable" awg) v).

(** [while not done: ...] followed by the [return]; every iteration
    takes one unit of [fuel]. *)
Fixpoint strobe_loop (fuel : nat) (verbose : bool) (strb_bits : list Z)
    (good_shots bad_shots : Z) : dio bool :=
  match fuel with
  | O => lift OutOfFuel
  | S fuel' =>
      data ← getv "raw/dios/0/data";
      symmetric ← lift (_is_dio_strb_symmetric data strb_bits);
      if symmetric : bool then
        vprint verbose "INFO   : Found good shot" [];;
        let bad_shots := 0 in
        let good_shots := good_shots + 1 in
        if 5 <? good_shots
        then ret ((0 <? good_shots) && (bad_shots =? 0))
        else strobe_loop fuel' verbose strb_bits good_shots bad_shots
      else
        resync verbose;;
        let good_shots := 0 in
        let bad_shots := bad_shots + 1 in
        if 5 <? bad_shots
        then ret ((0 <? good_shots) && (bad_shots =? 0))
        else strobe_loop fuel' verbose strb_bits good_shots bad_shots
  end.

Fixpoint read_strobe_bits (awgs : list Z) (strb_bits : list Z) : dio (list Z) :=
  match awgs with
  | [] => ret strb_bits
  | awg :: awgs' =>
      v ← geti (format1 "awgs/{}/dio/strobe/index" awg);
      read_strobe_bits awgs' (strb_bits ++ [v])
  end.

(** [list(set(strb_bits))] removes the duplicates; the order in which
    Python enumerates a set is not specified, and [elements] stands for
    it (lemma [is_symmetric_forallb]: with valid bit numbers the check
    does not depend on the order). *)
Definition _ensure_symmetric_strobe (fuel : nat) (verbose : bool) : dio bool :=
  strb_bits ← read_strobe_bits (seqZ 0 4) [];
  let strb_bits := elements (list_to_set strb_bits : gset Z) in
  vprint verbose "INFO   : Analyzing strobe bits {}" [PInts strb_bits];;
  strobe_loop fuel verbose strb_bits 0 0.

(** *** [calibrate_dio_protocol] (lines 435-482) *)

(** First loop: [None] when it is left by [return False]. *)
Fixpoint search_loop (verbose : bool) (awgs_and_sequences : list (Z * list Z))
    (all_valid_delays : list (gset Z)) : dio (option (list (gset Z))) :=
  match awgs_and_sequences with
  | [] => ret (Some all_valid_delays)
  | (awg, sequence) :: rest =>
      valid_delays ← _find_valid_delays awg sequence verbose;
      if negb (bool_decide (valid_delays = ∅)) then
        search_loop verbose rest (all_valid_delays ++ [valid_delays])
      else
        vprint verbose "ERROR  : Unable to find valid delays for AWG {}!" [PInt awg];;
        ret None
  end.

(** Body of the second loop. *)
Definition configure_delay (verbose : bool) (max_valid_delay : Z) (awg : Z) : dio () :=
  i ← geti (format1 "awgs/{}/dio/valid/index" awg);
  vld_mask ← lift (py_lshift 1 i);
  i ← geti (format1 "awgs/{}/dio/strobe/index" awg);
  strb_mask ← lift (py_lshift 1 i);
  cw_mask ← geti (format1 "awgs/{}/dio/mask/value" awg);
  cw_shift ← geti (format1 "awgs/{}/dio/mask/shift" awg);
  vprint verbose "INFO   : Setting delay of AWG {}" [PInt awg];;
  m ← lift (py_lshift cw_mask cw_shift);
  _set_dio_delay awg strb_mask (Z.lor m vld_mask) max_valid_delay.

Definition calibrate_dio_protocol (fuel : nat)
    (awgs_and_sequences : list (Z * list Z)) (verbose : bool) : dio bool :=
  vprint verbose "INFO   : Calibrating DIO delays" [];;
  symmetric ← _ensure_symmetric_strobe fuel verbose;
  if negb symmetric then
    vprint verbose "ERROR  : Strobe is not symmetric!" [];;
    ret false
  else
    vprint verbose "INFO   : Strobe is symmetric" [];;
    found ← search_loop verbose awgs_and_sequences [];
    match found with
    | None => ret false
    | Some all_valid_delays =>
        combined_valid_delays ← lift (py_set_intersection all_valid_delays);
        max_valid_delay ← lift (py_max combined_valid_delays);
        vprint verbose "INFO   : Valid delays are {}" [PSet combined_valid_delays];;
        vprint verbose "INFO   : Setting delay to {}" [PInt max_valid_delay];;
        for_each awgs_and_sequences (fun '(awg, _) =>
          configure_delay verbose max_valid_delay awg);;
        ret true
    end.
End driver.

(** * Properties *)

(** ** Bits *)

Lemma Z_nonzero_bit (z : Z) :
  z ≠ 0 ↔ ∃ i, 0 ≤ i ∧ Z.testbit z i = true.
Proof.
  split.
  - intros Hz. destruct (Z.lt_trichotomy z 0) as [Hneg | [-> | Hpos]]; [| done |].
    + exists (Z.log2 (Z.abs z) + 1). split; [pose proof (Z.log2_nonneg (Z.abs z)); lia |].
      apply Z.bits_iff_neg; lia.
    + exists (Z.log2 z). split; [apply Z.log2_nonneg |]. by apply Z.bit_log2.
  - intros (i & Hi & Hbit) ->. by rewrite Z.bits_0 in Hbit.
Qed.

Lemma truthy_bit (z : Z) :
  truthy z = true ↔ ∃ i, 0 ≤ i ∧ Z.testbit z i = true.
Proof.
  rewrite <- Z_nonzero_bit. unfold truthy.
  destruct (Z.eqb_spec z 0); simpl; split; done.
Qed.

(** The edges of the Bus Sample Decoder, bit by bit. *)
Definition rises (d ld mask : Z) : Prop :=
  ∃ i, 0 ≤ i ∧ Z.testbit mask i = true
       ∧ Z.testbit ld i = false ∧ Z.testbit d i = true.

Definition falls (d ld mask : Z) : Prop :=
  ∃ i, 0 ≤ i ∧ Z.testbit mask i = true
       ∧ Z.testbit ld i = true ∧ Z.testbit d i = false.

Definition changes (d ld mask : Z) : Prop :=
  ∃ i, 0 ≤ i ∧ Z.testbit mask i = true ∧ Z.testbit d i ≠ Z.testbit ld i.

Lemma get_edges_rising d ld mask :
  truthy (fst (_get_edges d ld mask)) = true ↔ rises d ld mask.
Proof.
  rewrite truthy_bit. unfold _get_edges, rises. simpl.
  split; intros (i & Hi & H); exists i; (split; [done |]).
  - rewrite !Z.land_spec, Z.lxor_spec in H.
    destruct (Z.testbit d i), (Z.testbit ld i), (Z.testbit mask i); done.
  - destruct H as (Hm & Hl & Hd). by rewrite !Z.land_spec, Z.lxor_spec, Hm, Hl, Hd.
Qed.

Lemma get_edges_falling d ld mask :
  truthy (snd (_get_edges d ld mask)) = true ↔ falls d ld mask.
Proof.
  rewrite truthy_bit. unfold _get_edges, falls. simpl.
  split; intros (i & Hi & H); exists i; (split; [done |]).
  - rewrite !Z.land_spec, Z.lxor_spec, Z.lnot_spec in H by done.
    destruct (Z.testbit d i), (Z.testbit ld i), (Z.testbit mask i); done.
  - destruct H as (Hm & Hl & Hd).
    by rewrite !Z.land_spec, Z.lxor_spec, Z.lnot_spec, Hm, Hl, Hd by done.
Qed.

Lemma changes_rises_falls d ld mask :
  changes d ld mask ↔ rises d ld mask ∨ falls d ld mask.
Proof.
  unfold changes, rises, falls. split.
  - intros (i & Hi & Hm & Hne).
    destruct (Z.testbit d i) eqn:Hd, (Z.testbit ld i) eqn:Hl; try done;
      [left | right]; exists i; done.
  - intros [(i & Hi & Hm & Hl & Hd) | (i & Hi & Hm & Hl & Hd)];
      exists i; rewrite Hl, Hd; done.
Qed.

(** No bit rises and falls in the same transition. *)
Lemma get_edges_disjoint d ld mask :
  Z.land (fst (_get_edges d ld mask)) (snd (_get_edges d ld mask)) = 0.
Proof.
  unfold _get_edges. simpl. apply Z.bits_inj'. intros i Hi.
  rewrite !Z.land_spec, Z.lnot_spec, Z.bits_0 by done.
  destruct (Z.testbit d i); simpl; rewrite ?andb_false_r; done.
Qed.

(** ** The Bus Trace Analyzer *)

Section analyze_facts.
Context (strb_mask strb_slope vld_mask vld_polarity cw_mask cw_shift : Z).

(** What happens at a position, in the words of the protocol: [ld] is the
    previous sample and [d] the current one. *)
Definition sample_point (d ld : Z) : Prop :=
  strb_slope = 0
  ∨ (strb_slope = 1 ∧ rises d ld strb_mask)
  ∨ (strb_slope = 2 ∧ falls d ld strb_mask)
  ∨ (strb_slope ≠ 0 ∧ strb_slope ≠ 1 ∧ strb_slope ≠ 2
     ∧ changes d ld strb_mask).

Definition valid_active (d : Z) : Prop :=
  (Z.testbit vld_polarity 0 = true ∧ Z.land d vld_mask = 0)
  ∨ (Z.testbit vld_polarity 1 = true ∧ Z.land d vld_mask ≠ 0).

(** The conditions as the loop body computes them. *)
Definition strobe_edge_b (d ld : Z) : bool :=
  if strb_slope =? 0 then true
  else if strb_slope =? 1 then truthy (fst (_get_edges d ld strb_mask))
  else if strb_slope =? 2 then truthy (snd (_get_edges d ld strb_mask))
  else truthy (fst (_get_edges d ld strb_mask))
       || truthy (snd (_get_edges d ld strb_mask)).

Definition valid_edge_b (d ld : Z) : bool :=
  negb (vld_polarity =? 0)
  && (truthy (fst (_get_edges d ld vld_mask))
      || truthy (snd (_get_edges d ld vld_mask))).

Definition data_edge_b (d ld : Z) : bool :=
  truthy (fst (_get_edges d ld (Z.shiftl cw_mask cw_shift)))
  || truthy (snd (_get_edges d ld (Z.shiftl cw_mask cw_shift))).

Definition active_b (d : Z) : bool :=
  (truthy (Z.land vld_polarity 1) && (Z.land d vld_mask =? 0))
  || (truthy (Z.land vld_polarity 2) && negb (Z.land d vld_mask =? 0)).

Definition violation_b (d ld : Z) : bool :=
  strobe_edge_b d ld && (valid_edge_b d ld || data_edge_b d ld).

Lemma get_edges_mask_0 d ld : _get_edges d ld 0 = (0, 0).
Proof. unfold _get_edges. by rewrite !Z.land_0_r. Qed.

Lemma analyze_body_first d last_d cws tvs :
  analyze_body strb_mask strb_slope vld_mask vld_polarity cw_mask cw_shift
    0 d last_d cws tvs = Ret (cws, tvs).
Proof. done. Qed.

Lemma analyze_body_next n d ld cws tvs :
  0 < n → 0 ≤ cw_shift →
  analyze_body strb_mask strb_slope vld_mask vld_polarity cw_mask cw_shift
    n d (Some ld) cws tvs
  = Ret (cws ++ (if strobe_edge_b d ld && active_b d
                 then [Z.land (Z.shiftr d cw_shift) cw_mask] else []),
         tvs ++ (if violation_b d ld then [n] else [])).
Proof.
  intros Hn Hs. unfold analyze_body, violation_b, strobe_edge_b,
    valid_edge_b, data_edge_b, active_b, py_lshift, py_rshift.
  unfold mbind, outcome_bind, obind.
  replace (0 <? n) with true by (symmetry; by apply Z.ltb_lt).
  replace (cw_shift <? 0) with false by (symmetry; apply Z.ltb_ge; lia).
  assert (Hz : cw_mask = 0 → Z.shiftl cw_mask cw_shift = 0)
    by (intros ->; apply Z.shiftl_0_l).
  set (va := (truthy (Z.land vld_polarity 1) && (Z.land d vld_mask =? 0))
             || _). clearbody va.
  destruct (_get_edges d ld strb_mask) as [sre sfe].
  destruct (_get_edges d ld vld_mask) as [vre vfe].
  destruct (Z.eqb_spec cw_mask 0) as [Hc | Hc];
    [rewrite (Hz Hc), get_edges_mask_0
    | destruct (_get_edges d ld (Z.shiftl cw_mask cw_shift)) as [dre dfe]];
    destruct (strb_slope =? 0), (strb_slope =? 1), (strb_slope =? 2),
      (vld_polarity =? 0); simpl;
    repeat match goal with
           | |- context [truthy ?x] =>
               is_var x; let b := fresh "b" in
               generalize (truthy x); intro b; destruct b; simpl
           end;
    destruct va; simpl; rewrite ?app_nil_r; done.
Qed.

(** The two outputs of the loop, from the sample after [ld] on. *)
Fixpoint decode_from (ld : Z) (data : list Z) : list Z :=
  match data with
  | [] => []
  | d :: data' =>
      (if strobe_edge_b d ld && active_b d
       then [Z.land (Z.shiftr d cw_shift) cw_mask] else [])
      ++ decode_from d data'
  end.

Fixpoint violations_from (n ld : Z) (data : list Z) : list Z :=
  match data with
  | [] => []
  | d :: data' =>
      (if violation_b d ld then [n] else [])
      ++ violations_from (n + 1) d data'
  end.

Lemma analyze_loop_next data : ∀ n ld cws tvs,
  0 < n → 0 ≤ cw_shift →
  analyze_loop strb_mask strb_slope vld_mask vld_polarity cw_mask cw_shift
    data n (Some ld) cws tvs
  = Ret (cws ++ decode_from ld data, tvs ++ violations_from n ld data).
Proof.
  induction data as [| d data IH]; intros n ld cws tvs Hn Hs; simpl.
  - by rewrite !app_nil_r.
  - rewrite analyze_body_next by done. simpl.
    rewrite IH by lia. by rewrite <- !app_assoc.
Qed.

Lemma analyze_cons d data :
  0 ≤ cw_shift →
  _analyze_dio_data strb_mask strb_slope vld_mask vld_polarity cw_mask cw_shift
    (d :: data)
  = Ret (decode_from d data, violations_from 1 d data).
Proof.
  intros Hs. unfold _analyze_dio_data. simpl.
  by rewrite analyze_loop_next.
Qed.

Lemma analyze_total data :
  0 ≤ cw_shift →
  ∃ cws tvs,
    _analyze_dio_data strb_mask strb_slope vld_mask vld_polarity cw_mask
      cw_shift data = Ret (cws, tvs).
Proof.
  intros Hs. destruct data as [| d data]; [by exists [], [] |].
  rewrite analyze_cons by done. eauto.
Qed.

(** The computed conditions mean what the protocol says. *)
Lemma strobe_edge_b_spec d ld :
  strobe_edge_b d ld = true ↔ sample_point d ld.
Proof.
  unfold strobe_edge_b, sample_point.
  destruct (Z.eqb_spec strb_slope 0); [naive_solver |].
  destruct (Z.eqb_spec strb_slope 1);
    [rewrite get_edges_rising; naive_solver |].
  destruct (Z.eqb_spec strb_slope 2);
    [rewrite get_edges_falling; naive_solver |].
  rewrite orb_true_iff, get_edges_rising, get_edges_falling,
    changes_rises_falls. naive_solver.
Qed.

Lemma edges_changes d ld mask :
  truthy (fst (_get_edges d ld mask)) || truthy (snd (_get_edges d ld mask))
  = true ↔ changes d ld mask.
Proof.
  by rewrite orb_true_iff, get_edges_rising, get_edges_falling,
    changes_rises_falls.
Qed.

Lemma violation_b_spec d ld :
  violation_b d ld = true ↔
  sample_point d ld
  ∧ ((vld_polarity ≠ 0 ∧ changes d ld vld_mask)
     ∨ changes d ld (Z.shiftl cw_mask cw_shift)).
Proof.
  unfold violation_b, valid_edge_b, data_edge_b.
  rewrite andb_true_iff, orb_true_iff, andb_true_iff, negb_true_iff,
    !edges_changes, strobe_edge_b_spec, Z.eqb_neq. done.
Qed.

Lemma truthy_land_pow2 a k :
  0 ≤ k → truthy (Z.land a (2 ^ k)) = true ↔ Z.testbit a k = true.
Proof.
  intros Hk. rewrite truthy_bit. split.
  - intros (i & Hi & H). rewrite Z.land_spec, Z.pow2_bits_eqb in H by done.
    apply andb_true_iff in H as [H1 H2]. apply Z.eqb_eq in H2. by subst.
  - intros H. exists k. split; [done |].
    by rewrite Z.land_spec, Z.pow2_bits_eqb, H, Z.eqb_refl.
Qed.

Lemma active_b_spec d : active_b d = true ↔ valid_active d.
Proof.
  unfold active_b, valid_active.
  rewrite orb_true_iff, !andb_true_iff, negb_true_iff.
  rewrite (truthy_land_pow2 vld_polarity 0), (truthy_land_pow2 vld_polarity 1)
    by lia.
  by rewrite Z.eqb_eq, Z.eqb_neq.
Qed.

(** Where the recorded violations are. *)
Lemma elem_of_violations_from data : ∀ n ld x,
  x ∈ violations_from n ld data ↔
  ∃ k p d, (ld :: data) !! k = Some p ∧ data !! k = Some d
           ∧ x = n + Z.of_nat k ∧ violation_b d p = true.
Proof.
  induction data as [| d data IH]; intros n ld x; simpl.
  - split; [by intros ?%elem_of_nil | by intros (k & p & d & _ & ? & _)].
  - rewrite elem_of_app, IH. split.
    + intros [H | (k & p & d' & H1 & H2 & -> & H3)].
      * destruct (violation_b d ld) eqn:Hv; [| by apply elem_of_nil in H].
        apply list_elem_of_singleton in H as ->.
        exists 0%nat, ld, d. repeat split; [lia | done].
      * exists (S k), p, d'. repeat split; [done | done | lia | done].
    + intros ([| k] & p & d' & H1 & H2 & -> & H3); simpl in *.
      * left. simplify_eq. rewrite H3. apply list_elem_of_singleton. lia.
      * right. exists k, p, d'. repeat split; [done | done | lia | done].
Qed.

Lemma violations_from_sorted data : ∀ n ld,
  StronglySorted Z.lt (violations_from n ld data)
  ∧ Forall (λ x, n ≤ x < n + len data) (violations_from n ld data).
Proof.
  unfold len.
  induction data as [| d data IH]; intros n ld; simpl.
  - split; constructor.
  - destruct (IH (n + 1) d) as [IH1 IH2].
    assert (IH3 : Forall (λ x, n < x < n + Z.of_nat (S (length data)))
                    (violations_from (n + 1) d data))
      by (eapply Forall_impl; [exact IH2 | simpl; lia]).
    destruct (violation_b d ld); simpl.
    + split.
      * constructor; [done |]. eapply Forall_impl; [exact IH3 | simpl; lia].
      * constructor; [lia |]. eapply Forall_impl; [exact IH3 | simpl; lia].
    + split; [done |]. eapply Forall_impl; [exact IH3 | simpl; lia].
Qed.

(** Without a usable shift the second sample already raises. *)
Lemma analyze_body_bad_shift n d ld cws tvs :
  0 < n → cw_shift < 0 →
  analyze_body strb_mask strb_slope vld_mask vld_polarity cw_mask cw_shift
    n d (Some ld) cws tvs = Raise ValueError.
Proof.
  intros Hn Hs. unfold analyze_body, py_lshift, py_rshift.
  unfold mbind, outcome_bind, obind.
  replace (0 <? n) with true by (symmetry; by apply Z.ltb_lt).
  replace (cw_shift <? 0) with true by (symmetry; by apply Z.ltb_lt).
  repeat match goal with
         | |- context [let '(_, _) := ?e in _] => destruct e
         end.
  destruct (cw_mask =? 0); reflexivity.
Qed.

Lemma analyze_bad_shift d0 d1 data :
  cw_shift < 0 →
  _analyze_dio_data strb_mask strb_slope vld_mask vld_polarity cw_mask
    cw_shift (d0 :: d1 :: data) = Raise ValueError.
Proof.
  intros Hs. unfold _analyze_dio_data. simpl.
  by rewrite analyze_body_bad_shift.
Qed.

(** The decoded codewords of a trace cut in two. *)
Lemma decode_from_app pre : ∀ ld d post,
  decode_from ld (pre ++ d :: post)
  = decode_from ld pre
    ++ (if strobe_edge_b d (default ld (last pre)) && active_b d
        then [Z.land (Z.shiftr d cw_shift) cw_mask] else [])
    ++ decode_from d post.
Proof.
  induction pre as [| p pre IH]; intros ld d post; simpl; [done |].
  rewrite IH, <- app_assoc. do 3 f_equal.
  rewrite last_cons. by destruct (last pre).
Qed.
End analyze_facts.

(** The previous and the current sample at position [n] of a trace, for
    every position after the first. *)
Definition pair_at (data : list Z) (n : Z) : option (Z * Z) :=
  if 1 <=? n then
    ld ← data !! Z.to_nat (n - 1); d ← data !! Z.to_nat n; Some (ld, d)
  else None.

Lemma pair_at_Some data n ld d :
  pair_at data n = Some (ld, d) ↔
  ∃ k, n = 1 + Z.of_nat k ∧ data !! k = Some ld ∧ data !! S k = Some d.
Proof.
  unfold pair_at. destruct (Z.leb_spec 1 n) as [Hn | Hn].
  - replace (Z.to_nat n) with (S (Z.to_nat (n - 1))) by lia.
    split.
    + intros H. exists (Z.to_nat (n - 1)). split; [lia |].
      destruct (data !! Z.to_nat (n - 1)); simpl in H; [| done].
      destruct (data !! S (Z.to_nat (n - 1))); simpl in H; [| done].
      by simplify_eq.
    + intros (k & -> & H1 & H2).
      replace (Z.to_nat (1 + Z.of_nat k - 1)) with k by lia.
      by rewrite H1, H2.
  - split; [done | intros (k & -> & _); lia].
Qed.

(** The encoding of a codeword survives the decoding. *)
Lemma decode_encode c mask shift other :
  0 ≤ shift → Z.land c mask = c → Z.land other (Z.shiftl mask shift) = 0 →
  Z.land (Z.shiftr (Z.lor (Z.shiftl c shift) other) shift) mask = c.
Proof.
  intros Hs Hc Ho. apply Z.bits_inj'. intros i Hi.
  rewrite Z.land_spec, Z.shiftr_spec, Z.lor_spec, Z.shiftl_spec by lia.
  replace (i + shift - shift) with i by lia.
  assert (H1 : Z.testbit c i && Z.testbit mask i = Z.testbit c i)
    by (by rewrite <- Z.land_spec, Hc).
  assert (H2 : Z.testbit other (i + shift) && Z.testbit mask i = false).
  { rewrite <- (Z.bits_0 (i + shift)), <- Ho, Z.land_spec, Z.shiftl_spec by lia.
    by replace (i + shift - shift) with i by lia. }
  destruct (Z.testbit c i), (Z.testbit mask i), (Z.testbit other (i + shift));
    done.
Qed.

(** ** The Strobe Symmetry Checker *)

(** Maximal runs of equal values, with their lengths. *)
Fixpoint runs (l : list bool) : list (bool * nat) :=
  match l with
  | [] => []
  | b :: l' =>
      match runs l' with
      | (b', n) :: rs =>
          if Bool.eqb b b' then (b, S n) :: rs else (b, 1%nat) :: (b', n) :: rs
      | [] => [(b, 1%nat)]
      end
  end.

(** The strobe line [bit] over a trace. *)
Definition strobe_signal (bit : Z) (data : list Z) : list bool :=
  (λ d, Z.testbit d bit) <$> data.

Definition run_lengths (bit : Z) (data : list Z) : list nat :=
  snd <$> runs (strobe_signal bit data).

(** Any two neighbouring runs that both begin and end inside the window
    (neither the first nor the last run of the window) have the same
    length. *)
Definition equal_runs (lens : list nat) : Prop :=
  ∀ i x y, (1 ≤ i)%nat → lens !! i = Some x → lens !! S i = Some y →
           is_Some (lens !! S (S i)) → x = y.

(** The line keeps one value over the whole trace. *)
Definition never_toggles (bit : Z) (data : list Z) : Prop :=
  ∀ d d', d ∈ data → d' ∈ data → Z.testbit d bit = Z.testbit d' bit.

(** What the loop compares: the counter of a run is one less than its
    length (the sample of the edge is not counted); [prev] is the counter
    of the run before, [0] when that run started the window.  The last
    run of the window is never compared. *)
Fixpoint chain (prev : Z) (counts : list Z) : bool :=
  match counts with
  | c :: ((_ :: _) as rest) =>
      if (0 <? prev) && negb (prev =? c) then false else chain c rest
  | _ => true
  end.

Definition run_count (r : bool * nat) : Z := Z.of_nat (snd r) - 1.

(** The state inside a run of value [b] that began at an edge, and inside
    the run that began the window. *)
Definition mstate (b : bool) (prev cur : Z) : strb_state :=
  if b
  then {| count_low := false; count_high := true;
          strobe_low := prev; strobe_high := cur; last_strobe := Some true |}
  else {| count_low := true; count_high := false;
          strobe_low := cur; strobe_high := prev; last_strobe := Some false |}.

Definition ustate (b : bool) : strb_state :=
  {| count_low := false; count_high := false;
     strobe_low := 0; strobe_high := 0; last_strobe := Some b |}.

Section strobe_facts.
Context (mask : Z).
Let line (d : Z) : bool := negb (Z.land d mask =? 0).

Lemma strb_step_init d : strb_step mask strb_init d = Some (ustate (line d)).
Proof. done. Qed.

Lemma strb_step_ustate b d :
  strb_step mask (ustate b) d
  = Some (if Bool.eqb (line d) b then ustate b else mstate (line d) 0 0).
Proof. unfold strb_step, line. simpl. by destruct (Z.land d mask =? 0), b. Qed.

Lemma strb_step_mstate b prev cur d :
  strb_step mask (mstate b prev cur) d
  = if Bool.eqb (line d) b then Some (mstate b prev (cur + 1))
    else if (0 <? prev) && negb (prev =? cur) then None
    else Some (mstate (negb b) cur 0).
Proof.
  unfold strb_step, line.
  destruct (Z.land d mask =? 0), b; simpl; try done.
  - by destruct ((0 <? prev) && negb (prev =? cur)).
  - rewrite (Z.eqb_sym cur prev).
    by destruct ((0 <? prev) && negb (prev =? cur)).
Qed.

Lemma runs_cons_same b l :
  ∃ n rs, runs (b :: l) = (b, S n) :: rs
          ∧ (∀ b', b' ≠ b → runs (b' :: b :: l) = (b', 1%nat) :: (b, S n) :: rs)
          ∧ runs (b :: b :: l) = (b, S (S n)) :: rs.
Proof.
  assert (H : ∃ n rs, runs (b :: l) = (b, S n) :: rs).
  { simpl. destruct (runs l) as [| [b' n] rs]; [by exists 0%nat, [] |].
    destruct (Bool.eqb b b'); eauto. }
  destruct H as (n & rs & H). exists n, rs. split; [done |]. split.
  - intros b' Hb'. change (runs (b' :: b :: l)) with
      (match runs (b :: l) with
       | (b'', n) :: rs =>
           if Bool.eqb b' b'' then (b', S n) :: rs
           else (b', 1%nat) :: (b'', n) :: rs
       | [] => [(b', 1%nat)]
       end).
    rewrite H. by destruct b, b'.
  - change (runs (b :: b :: l)) with
      (match runs (b :: l) with
       | (b'', n) :: rs =>
           if Bool.eqb b b'' then (b, S n) :: rs
           else (b, 1%nat) :: (b'', n) :: rs
       | [] => [(b, 1%nat)]
       end).
    rewrite H. by destruct b.
Qed.

(** Counters of the runs seen from inside a run whose counter is [cur]. *)
Definition counts_from (cur : Z) (rs : list (bool * nat)) : list Z :=
  match rs with
  | [] => []
  | r :: rs' => (cur + run_count r) :: (run_count <$> rs')
  end.

Lemma strb_loop_mstate data : ∀ b prev cur,
  strb_loop mask (mstate b prev cur) data
  = chain prev (counts_from cur (runs (b :: (line <$> data)))).
Proof.
  induction data as [| d data IH]; intros b prev cur; [done |].
  cbn [strb_loop fmap list_fmap]. rewrite strb_step_mstate.
  destruct (runs_cons_same (line d) (line <$> data)) as (n & rs & H1 & H2 & H3).
  destruct (Bool.eqb (line d) b) eqn:Hb.
  - apply Bool.eqb_prop in Hb as <-. rewrite IH. unfold fmap in *.
    rewrite H1, H3. unfold counts_from, run_count. simpl.
    by replace (cur + 1 + (Z.of_nat (S n) - 1))
      with (cur + (Z.of_nat (S (S n)) - 1)) by lia.
  - assert (Hne : b ≠ line d) by (intros ->; by rewrite Bool.eqb_reflx in Hb).
    assert (Hnb : negb b = line d) by (by destruct b, (line d)).
    unfold fmap in *. rewrite (H2 b Hne). unfold counts_from, run_count.
    cbn [chain snd list_fmap]. rewrite Z.add_0_r.
    destruct ((0 <? prev) && negb (prev =? cur)); [done |].
    rewrite IH, Hnb. unfold fmap. rewrite H1.
    unfold counts_from, run_count. by rewrite Z.add_0_l.
Qed.

Lemma strb_loop_ustate data : ∀ b,
  strb_loop mask (ustate b) data
  = chain 0 (run_count <$> tail (runs (b :: (line <$> data)))).
Proof.
  induction data as [| d data IH]; intros b; [done |].
  cbn [strb_loop fmap list_fmap]. rewrite strb_step_ustate.
  destruct (runs_cons_same (line d) (line <$> data)) as (n & rs & H1 & H2 & H3).
  destruct (Bool.eqb (line d) b) eqn:Hb.
  - apply Bool.eqb_prop in Hb as <-. rewrite IH. unfold fmap in *.
    by rewrite H1, H3.
  - assert (Hne : b ≠ line d) by (intros ->; by rewrite Bool.eqb_reflx in Hb).
    rewrite strb_loop_mstate. unfold fmap in *. rewrite (H2 b Hne), H1.
    unfold counts_from. by rewrite Z.add_0_l.
Qed.

Lemma strb_loop_init data :
  strb_loop mask strb_init data
  = chain 0 (run_count <$> tail (runs (line <$> data))).
Proof.
  destruct data as [| d data]; [done |].
  cbn [strb_loop]. by rewrite strb_step_init, strb_loop_ustate.
Qed.
End strobe_facts.

Lemma chain_equal prev counts :
  (∀ i x y, counts !! i = Some x → counts !! S i = Some y →
            is_Some (counts !! S (S i)) → x = y) →
  (prev = 0 ∨ ∀ c, counts !! 0%nat = Some c → is_Some (counts !! 1%nat) → prev = c) →
  chain prev counts = true.
Proof.
  revert prev. induction counts as [| c counts IH]; intros prev Heq Hprev; [done |].
  destruct counts as [| c' counts]; [done |].
  cbn [chain].
  assert (Hc : (0 <? prev) && negb (prev =? c) = false).
  { destruct Hprev as [-> | Hprev]; [done |].
    rewrite (Hprev c) by (by eauto). by rewrite Z.eqb_refl, andb_false_r. }
  rewrite Hc. apply IH.
  - intros i x y H1 H2 H3. by apply (Heq (S i)).
  - right. intros c0 H1 H2. simpl in H1. simplify_eq. by apply (Heq 0%nat).
Qed.

Lemma line_testbit bit d :
  0 ≤ bit → negb (Z.land d (Z.shiftl 1 bit) =? 0) = Z.testbit d bit.
Proof.
  intros Hb. rewrite Z.shiftl_1_l.
  pose proof (truthy_land_pow2 d bit Hb) as H. unfold truthy in H.
  destruct (negb (Z.land d (2 ^ bit) =? 0)), (Z.testbit d bit); naive_solver.
Qed.

(** The per-bit loop on a valid bit number, in terms of the run lengths of
    the strobe line. *)
Lemma strb_loop_run_lengths bit data :
  0 ≤ bit →
  strb_loop (Z.shiftl 1 bit) strb_init data
  = chain 0 ((λ n, Z.of_nat n - 1) <$> tail (run_lengths bit data)).
Proof.
  intros Hb. rewrite strb_loop_init. f_equal.
  unfold run_lengths, strobe_signal.
  replace ((λ d, negb (Z.land d (Z.shiftl 1 bit) =? 0)) <$> data)
    with ((λ d, Z.testbit d bit) <$> data)
    by (apply list_fmap_ext; intros; symmetry; by apply line_testbit).
  generalize (runs ((λ d, Z.testbit d bit) <$> data)). intros [| r rs]; [done |].
  simpl. by rewrite <- list_fmap_compose.
Qed.

Lemma strb_loop_equal_runs bit data :
  0 ≤ bit → equal_runs (run_lengths bit data) →
  strb_loop (Z.shiftl 1 bit) strb_init data = true.
Proof.
  intros Hb Heq. rewrite strb_loop_run_lengths by done.
  apply chain_equal; [| by left].
  destruct (run_lengths bit data) as [| l0 lens]; [done |]. simpl.
  intros i x y H1 H2 H3. rewrite !list_lookup_fmap in *.
  destruct (lens !! i) as [x' |] eqn:Hx; [| done].
  destruct (lens !! S i) as [y' |] eqn:Hy; [| done].
  simpl in *. simplify_eq. f_equal. f_equal.
  apply (Heq (S i)); [lia | done | done |]. simpl.
  by apply fmap_is_Some in H3.
Qed.

Lemma is_symmetric_forallb data bits :
  Forall (λ bit, 0 ≤ bit) bits →
  _is_dio_strb_symmetric data bits
  = Ret (forallb (λ bit, strb_loop (Z.shiftl 1 bit) strb_init data) bits).
Proof.
  induction 1 as [| bit bits Hb _ IH]; [done |].
  simpl. unfold py_lshift. destruct (Z.ltb_spec bit 0); [lia |]. simpl.
  by destruct (strb_loop (Z.shiftl 1 bit) strb_init data).
Qed.

Lemma runs_constant b l :
  (∀ b', b' ∈ l → b' = b) → (length (runs l) ≤ 1)%nat.
Proof.
  induction l as [| b0 l IH]; intros H; [simpl; lia |].
  assert (Hl : ∀ b', b' ∈ l → b' = b) by (intros; apply H; by right).
  specialize (IH Hl). simpl.
  destruct (runs l) as [| [b1 n] rs] eqn:Hr; [simpl; lia |].
  assert (b1 = b) as ->.
  { destruct l as [| b2 l]; [done |].
    destruct (runs_cons_same b2 l) as (? & ? & Hrs & _).
    rewrite Hrs in Hr. simplify_eq. apply Hl. by left. }
  rewrite (H b0) by by left. rewrite Bool.eqb_reflx. simpl in *. lia.
Qed.

Lemma equal_runs_short lens : (length lens ≤ 3)%nat → equal_runs lens.
Proof.
  intros Hl i x y Hi _ _ [z Hz]. apply lookup_lt_Some in Hz. lia.
Qed.

Lemma never_toggles_equal_runs bit data :
  never_toggles bit data → equal_runs (run_lengths bit data).
Proof.
  intros H. apply equal_runs_short. unfold run_lengths. rewrite length_fmap.
  destruct data as [| d0 data]; [simpl; lia |].
  pose proof (runs_constant (Z.testbit d0 bit) (strobe_signal bit (d0 :: data)))
    as Hr.
  cut (length (runs (strobe_signal bit (d0 :: data))) ≤ 1)%nat; [lia |].
  apply Hr. intros b' (d & -> & Hd)%list_elem_of_fmap.
  apply H; [done | by left].
Qed.

(** ** Reasoning about runs

    [wp m h Q]: run from the history [h], the computation [m] ends with an
    outcome and added events that satisfy [Q]. *)

Definition wp {A} (m : dio A) (h : list event)
    (Q : outcome A → list event → Prop) : Prop :=
  Q (m h).1 (m h).2.

Lemma wp_mono {A} (m : dio A) h (Q Q' : outcome A → list event → Prop) :
  wp m h Q → (∀ r o, Q r o → Q' r o) → wp m h Q'.
Proof. unfold wp. auto. Qed.

Lemma wp_ret {A} (a : A) h (Q : outcome A → list event → Prop) :
  Q (Ret a) [] → wp (ret a) h Q.
Proof. done. Qed.

Lemma wp_lift {A} (o : outcome A) h (Q : outcome A → list event → Prop) :
  Q o [] → wp (lift o) h Q.
Proof. done. Qed.

Lemma wp_emit e h (Q : outcome () → list event → Prop) :
  Q (Ret ()) [e] → wp (emit e) h Q.
Proof. done. Qed.

Lemma wp_vprint (verbose : bool) text args h
    (Q : outcome () → list event → Prop) :
  Q (Ret ()) (if verbose then [EvPrint text args] else []) →
  wp (vprint verbose text args) h Q.
Proof. by destruct verbose. Qed.

Lemma wp_bind {A B} (m : dio A) (k : A → dio B) h
    (Q : outcome B → list event → Prop) :
  wp m h (λ r o,
    match r with
    | Ret a => wp (k a) (h ++ o) (λ r' o', Q r' (o ++ o'))
    | Raise e => Q (Raise e) o
    | OutOfFuel => Q OutOfFuel o
    end) →
  wp (m ≫= k) h Q.
Proof.
  unfold wp, mbind, dio_mbind, dio_bind.
  destruct (m h) as [[a | e |] o]; simpl; [| done | done].
  by destruct (k a (h ++ o)).
Qed.

Lemma wp_geti dev path h (Q : outcome Z → list event → Prop) :
  Q (Ret (geti_reply dev h path)) [EvGeti path (geti_reply dev h path)] →
  wp (geti dev path) h Q.
Proof. done. Qed.

Lemma wp_getv dev path h (Q : outcome (list Z) → list event → Prop) :
  Q (Ret (getv_reply dev h path)) [EvGetv path (getv_reply dev h path)] →
  wp (getv dev path) h Q.
Proof. done. Qed.

Lemma wp_run {A} (m : dio A) h (Q : outcome A → list event → Prop) :
  wp m h Q → ∃ r o, m h = (r, o) ∧ Q r o.
Proof. unfold wp. destruct (m h) as [r o]. eauto. Qed.

Ltac wp_step :=
  lazymatch goal with
  | |- wp (_ ≫= _) _ _ => apply wp_bind
  | |- wp (ret _) _ _ => apply wp_ret
  | |- wp (lift (Ret _)) _ _ => apply wp_lift
  | |- wp (lift (Raise _)) _ _ => apply wp_lift
  | |- wp (lift OutOfFuel) _ _ => apply wp_lift
  | |- wp (vprint _ _ _) _ _ => apply wp_vprint
  | |- wp (print _ _) _ _ => apply wp_emit
  | |- wp (emit _) _ _ => apply wp_emit
  | |- wp (seti _ _) _ _ => apply wp_emit
  | |- wp (geti _ _) _ _ => apply wp_geti
  | |- wp (getv _ _) _ _ => apply wp_getv
  end.

Ltac wp_go := repeat (wp_step; cbv beta iota).

Lemma wp_for_each {A} (l : list A) (body : A → dio ()) (f : A → list event) :
  (∀ x h, x ∈ l → wp (body x) h (λ r o, r = Ret () ∧ o = f x)) →
  ∀ h, wp (for_each l body) h (λ r o, r = Ret () ∧ o = mjoin (f <$> l)).
Proof.
  induction l as [| x l IH]; intros Hbody h; simpl; [by wp_step |].
  wp_step. eapply wp_mono; [apply Hbody; by left |].
  intros r o [-> ->]. eapply wp_mono; [apply IH |].
  - intros y h' Hy. apply Hbody. by right.
  - by intros r o [-> ->].
Qed.

(** ** The Delay Configurator *)

(** The writes of one [_set_dio_delay] call: for each of the 32 bits, the
    bit number and the delay of its line. *)
Definition delay_writes (awg strb_mask data_mask strb_delay data_delay : Z)
    : list event :=
  mjoin ((λ i, [EvSeti (format1 "awgs/{}/dio/delay/index" awg) i;
                EvSeti (format1 "awgs/{}/dio/delay/value" awg)
                  (if Z.testbit strb_mask i then strb_delay
                   else if Z.testbit data_mask i then data_delay
                   else 0)]) <$> seqZ 0 32).

Definition clamp_warnings (delay : Z) : list event :=
  (if delay <? 0 then [EvPrint "WARNING: Clamping delay to 0" []] else [])
  ++ (if 6 <? delay then [EvPrint "WARNING: Clamping delay to 6" []] else []).

(** The delays the code programs for the strobe line and the data lines.
    Only the upper bound is applied to [delay]. *)
Definition strobe_side (delay : Z) : Z :=
  if 3 <? Z.min delay 6 then Z.min delay 6 - 3 else 0.
Definition data_side (delay : Z) : Z :=
  if 3 <? Z.min delay 6 then 0 else 3 - Z.min delay 6.

Lemma set_dio_delay_spec awg strb_mask data_mask delay h :
  wp (_set_dio_delay awg strb_mask data_mask delay) h
     (λ r o, r = Ret ()
             ∧ o = clamp_warnings delay
                   ++ delay_writes awg strb_mask data_mask
                        (strobe_side delay) (data_side delay)).
Proof.
  unfold _set_dio_delay, clamp_warnings, strobe_side, data_side.
  assert (Hloop : ∀ sd dd h',
    wp (for_each (seqZ 0 32) (λ i,
          seti (format1 "awgs/{}/dio/delay/index" awg) i;;
          if truthy (Z.land strb_mask (Z.shiftl 1 i))
          then seti (format1 "awgs/{}/dio/delay/value" awg) sd
          else if truthy (Z.land data_mask (Z.shiftl 1 i))
          then seti (format1 "awgs/{}/dio/delay/value" awg) dd
          else seti (format1 "awgs/{}/dio/delay/value" awg) 0)) h'
       (λ r o, r = Ret () ∧ o = delay_writes awg strb_mask data_mask sd dd)).
  { intros sd dd h'. apply wp_for_each. intros i h'' Hi.
    apply elem_of_seqZ in Hi. unfold truthy.
    rewrite !line_testbit by lia. wp_go.
    destruct (Z.testbit strb_mask i); [by wp_go |].
    destruct (Z.testbit data_mask i); by wp_go. }
  wp_step.
  destruct (Z.ltb_spec delay 0) as [Hneg | Hpos]; wp_go;
    destruct (Z.ltb_spec 6 delay) as [Hbig | Hsmall]; try lia; wp_go.
  - rewrite Z.min_l by lia.
    destruct (Z.ltb_spec 3 delay); [lia |].
    eapply wp_mono; [apply Hloop | by intros r o [-> ->]].
  - rewrite Z.min_r by lia. simpl.
    eapply wp_mono; [apply Hloop | by intros r o [-> ->]].
  - rewrite Z.min_l by lia.
    destruct (Z.ltb_spec 3 delay);
      (eapply wp_mono; [apply Hloop | by intros r o [-> ->]]).
Qed.

(** ** Captures in a run *)

Definition capture_of (e : event) : option (list Z) :=
  match e with
  | EvGetv _ data => Some data
  | _ => None
  end.

(** The traces captured during a run, in order. *)
Definition captures (out : list event) : list (list Z) := omap capture_of out.

Lemma captures_app o1 o2 : captures (o1 ++ o2) = captures o1 ++ captures o2.
Proof. apply omap_app. Qed.

Lemma captures_vprint (verbose : bool) text args :
  captures (if verbose then [EvPrint text args] else []) = [].
Proof. by destruct verbose. Qed.

Lemma captures_mjoin {A} (f : A → list event) (l : list A) :
  (∀ x, captures (f x) = []) → captures (mjoin (f <$> l)) = [].
Proof.
  intros Hf. induction l as [| x l IH]; [done |].
  change (captures (f x ++ mjoin (f <$> l)) = []).
  by rewrite captures_app, Hf, IH.
Qed.

Lemma captures_clamp_warnings delay : captures (clamp_warnings delay) = [].
Proof. unfold clamp_warnings. by destruct (delay <? 0), (6 <? delay). Qed.

Lemma captures_delay_writes awg strb_mask data_mask sd dd :
  captures (delay_writes awg strb_mask data_mask sd dd) = [].
Proof. unfold delay_writes. by rewrite captures_mjoin. Qed.

(** ** The validation of a decoded sequence *)

(** [i] is where [x] first occurs in [l]. *)
Definition first_index (l : list Z) (x : Z) (i : nat) : Prop :=
  l !! i = Some x ∧ ∀ j, (j < i)%nat → l !! j ≠ Some x.

(** From position [i] of the cyclic [expected], the codewords [rest] are
    the ones that follow. *)
Definition follows (expected : list Z) (i : nat) (rest : list Z) : Prop :=
  ∀ k x, rest !! k = Some x →
         expected !! ((i + 1 + k) `mod` length expected)%nat = Some x.

Definition cyclic_match (expected codewords : list Z) : Prop :=
  match codewords with
  | [] => True
  | c :: rest => ∃ i, first_index expected c i ∧ follows expected i rest
  end.

Lemma py_in_spec x l : py_in x l = true ↔ x ∈ l.
Proof. unfold py_in. apply bool_decide_eq_true. Qed.

Lemma py_index_spec l x :
  x ∈ l → ∃ i, py_index l x = Ret (Z.of_nat i) ∧ first_index l x i.
Proof.
  induction l as [| y l IH]; [by intros ?%elem_of_nil |].
  intros Hx. simpl. destruct (Z.eqb_spec x y) as [-> | Hne].
  - exists 0%nat. split; [done |]. split; [done | lia].
  - apply elem_of_cons in Hx as [| Hx]; [done |].
    destruct (IH Hx) as (i & -> & Hi1 & Hi2). exists (S i). split.
    + simpl. f_equal. lia.
    + split; [done |]. intros [| j] Hj; simpl; [congruence | apply Hi2; lia].
Qed.

Lemma first_index_unique l x i j :
  first_index l x i → first_index l x j → i = j.
Proof.
  intros [H1 H2] [H3 H4]. destruct (Nat.lt_trichotomy i j) as [? | [? | ?]];
    [by destruct (H4 i) | done | by destruct (H2 j)].
Qed.

Lemma py_getitem_nat l i x :
  l !! i = Some x → py_getitem l (Z.of_nat i) = Ret x.
Proof.
  intros H. unfold py_getitem.
  assert (Hf : (Z.of_nat i <? 0) = false) by (apply Z.ltb_ge; lia).
  cbv zeta. by rewrite !Hf, Nat2Z.id, H.
Qed.

Lemma follows_nil expected i : follows expected i [].
Proof. by intros k x H. Qed.

Lemma follows_cons expected i c rest :
  follows expected i (c :: rest) ↔
  expected !! ((i + 1) `mod` length expected)%nat = Some c
  ∧ follows expected ((i + 1) `mod` length expected)%nat rest.
Proof.
  unfold follows. split.
  - intros H. split.
    + specialize (H 0%nat c eq_refl). by rewrite Nat.add_0_r in H.
    + intros k x Hk. specialize (H (S k) x Hk).
      destruct (length expected) as [| L] eqn:HL.
      * apply nil_length_inv in HL. by subst.
      * rewrite <- Nat.add_assoc, Nat.Div0.add_mod_idemp_l.
        by replace (i + 1 + (1 + k))%nat with (i + 1 + S k)%nat by lia.
  - intros [H0 H] [| k] x Hk; simpl in Hk.
    + simplify_eq. by rewrite Nat.add_0_r.
    + specialize (H k x Hk).
      rewrite <- Nat.add_assoc, Nat.Div0.add_mod_idemp_l in H.
      by replace (i + 1 + S k)%nat with (i + 1 + (1 + k))%nat by lia.
Qed.

Section check_loop_facts.
Context (expected : list Z) (verbose : bool) (all_codewords : list Z).

Lemma check_loop_follow rest : ∀ n i h,
  0 < n → (i < length expected)%nat →
  wp (check_loop expected verbose all_codewords rest n (Some (Z.of_nat i))) h
     (λ r o, captures o = []
             ∧ ∃ b, r = Ret b ∧ (b = true ↔ follows expected i rest)).
Proof.
  induction rest as [| c rest IH]; intros n i h Hn Hi; cbn [check_loop].
  - wp_go. split; [done |]. exists true. split; [done |].
    split; [intros _ | done]. apply follows_nil.
  - destruct (Z.eqb_spec n 0) as [| _]; [lia |].
    set (i' := ((i + 1) `mod` length expected)%nat).
    assert (Hi' : (i' < length expected)%nat)
      by (apply Nat.mod_upper_bound; lia).
    assert (Hmod : py_mod (Z.of_nat i + 1) (len expected) = Ret (Z.of_nat i')).
    { unfold py_mod, len. destruct (Z.eqb_spec (Z.of_nat (length expected)) 0);
        [lia |]. f_equal. unfold i'. rewrite Nat2Z.inj_mod. f_equal. lia. }
    destruct (lookup_lt_is_Some_2 expected i' Hi') as [e He].
    destruct (lookup_lt_is_Some_2 expected i Hi) as [p Hp].
    wp_go. rewrite Hmod. wp_go. rewrite (py_getitem_nat _ _ _ He). wp_go.
    destruct (Z.eqb_spec c e) as [-> | Hne]; cbn [negb].
    + eapply wp_mono; [apply IH; [lia | done] |].
      intros r o (Ho & b & -> & Hb). split; [done |].
      exists b. split; [done |].
      rewrite Hb, follows_cons. fold i'. naive_solver.
    + assert (¬ follows expected i (c :: rest)) as Hnf
        by (rewrite follows_cons; fold i'; intros [H _]; congruence).
      wp_step. destruct verbose; wp_go;
        rewrite ?(py_getitem_nat _ _ _ Hp); wp_go;
        (split; [done |]; exists false; split; [done |]; split; done).
Qed.

Lemma check_loop_spec codewords h :
  wp (check_loop expected verbose all_codewords codewords 0 None) h
     (λ r o, captures o = []
             ∧ ∃ b, r = Ret b ∧ (b = true ↔ cyclic_match expected codewords)).
Proof.
  destruct codewords as [| c rest]; cbn [check_loop].
  - wp_go. split; [done |]. by exists true.
  - rewrite Z.eqb_refl. destruct (py_in c expected) eqn:Hin; cbn [negb].
    + apply py_in_spec in Hin.
      destruct (py_index_spec _ _ Hin) as (i & Hidx & Hfirst).
      wp_go. rewrite Hidx. wp_go.
      eapply wp_mono;
        [apply check_loop_follow;
         [lia | by eapply lookup_lt_Some, Hfirst] |].
      intros r o (Ho & b & -> & Hb). split; [done |].
      exists b. split; [done |]. rewrite Hb.
      split; [by exists i |].
      intros (j & Hj & Hf). by rewrite (first_index_unique _ _ _ _ Hfirst Hj).
    + wp_go. split; [by destruct verbose |].
      exists false. split; [done |]. split; [done |].
      intros (i & [Hi _] & _).
      assert (c ∈ expected) as Hc%py_in_spec by by eapply list_elem_of_lookup_2.
      congruence.
Qed.
End check_loop_facts.

(** ** The Delay Search Engine *)

Section find_valid_delays_facts.
Context (dev : device) (awg : Z) (expected_sequence : list Z) (verbose : bool).
Context (vld_mask vld_polarity strb_mask strb_slope cw_mask cw_shift : Z).
Context (Hshift : 0 ≤ cw_shift).

(** The codewords decoded from a captured trace. *)
Definition decoded (data : list Z) : list Z :=
  match _analyze_dio_data strb_mask strb_slope vld_mask vld_polarity
          cw_mask cw_shift data with
  | Ret (codewords, _) => codewords
  | _ => []
  end.

Local Abbreviation capture_ :=
  (capture dev awg vld_mask vld_polarity strb_mask strb_slope cw_mask cw_shift).
Local Abbreviation retry_loop_ :=
  (retry_loop dev awg verbose vld_mask vld_polarity strb_mask strb_slope
     cw_mask cw_shift).
Local Abbreviation delay_body_ :=
  (delay_body dev awg expected_sequence verbose vld_mask vld_polarity
     strb_mask strb_slope cw_mask cw_shift).
Local Abbreviation delay_loop_ :=
  (delay_loop dev awg expected_sequence verbose vld_mask vld_polarity
     strb_mask strb_slope cw_mask cw_shift).

Lemma capture_spec h :
  wp capture_ h
     (λ r o, ∃ data tvs, r = Ret (decoded data, tvs) ∧ captures o = [data]).
Proof.
  unfold capture. wp_go.
  set (data := getv_reply dev h _).
  destruct (analyze_total strb_mask strb_slope vld_mask vld_polarity cw_mask
              cw_shift data Hshift) as (cws & tvs & Hrun).
  rewrite Hrun. wp_go. exists data, tvs. unfold decoded. by rewrite Hrun.
Qed.

(** What the retries leave behind: [caps] are the traces captured by the
    retries, [codewords] the codewords in hand at the end. *)
Definition retried (t : Z) (codewords0 : list Z) (caps : list (list Z))
    (codewords : list Z) : Prop :=
  len caps ≤ 6 - t
  ∧ codewords = default codewords0 (decoded <$> last caps)
  ∧ (caps ≠ [] → cw_mask ≠ 0 ∧ codewords0 = [])
  ∧ (∀ data, data ∈ removelast caps → decoded data = [])
  ∧ (len caps < 6 - t → cw_mask = 0 ∨ codewords ≠ []).

Lemma retried_none t codewords :
  0 ≤ t ≤ 6 → (t < 6 → cw_mask = 0 ∨ codewords ≠ []) →
  retried t codewords [] codewords.
Proof.
  intros Ht Hstop. unfold retried, len. simpl.
  split; [lia |]. split; [done |]. split; [done |].
  split; [by intros ? ?%elem_of_nil |]. intros ?. apply Hstop. lia.
Qed.

Lemma retried_cons t data caps codewords :
  0 ≤ t → cw_mask ≠ 0 →
  retried (t + 1) (decoded data) caps codewords →
  retried t [] (data :: caps) codewords.
Proof.
  unfold retried, len. intros Ht Hm (H1 & H2 & H3 & H4 & H5).
  split; [simpl; lia |]. split.
  { rewrite H2. destruct caps as [| c cs]; [done |].
    rewrite (last_cons_cons data c cs), last_cons. by destruct (last cs). }
  split; [done |]. split.
  - intros d Hd. destruct caps as [| c cs]; [by apply elem_of_nil in Hd |].
    change (removelast (data :: c :: cs)) with (data :: removelast (c :: cs))
      in Hd.
    apply elem_of_cons in Hd as [-> | Hd]; [| by apply H4].
    by destruct (H3 ltac:(done)) as [_ ?].
  - intros Hlt. apply H5. simpl in Hlt. lia.
Qed.

Lemma retry_loop_spec budget : ∀ t codewords tvs h,
  0 ≤ t ≤ 6 → 6 ≤ t + Z.of_nat budget →
  wp (retry_loop_ budget t codewords tvs) h
     (λ r o, ∃ codewords' tvs',
        r = Ret (codewords', tvs')
        ∧ retried t codewords (captures o) codewords'
        ∧ (captures o = [] → tvs' = tvs)).
Proof.
  induction budget as [| budget IH]; intros t cws tvs h Ht Hb;
    cbn [retry_loop].
  - assert (t = 6) as -> by lia.
    destruct (negb (cw_mask =? 0) && (len cws =? 0)); cbv beta iota;
      wp_go; exists cws, tvs; (split; [done |]); (split; [| done]);
      apply retried_none; lia.
  - destruct (negb (cw_mask =? 0) && (len cws =? 0)) eqn:Hc.
    + apply andb_true_iff in Hc as [Hm Hl].
      apply negb_true_iff, Z.eqb_neq in Hm. apply Z.eqb_eq in Hl.
      assert (cws = []) as ->
        by (destruct cws; [done | unfold len in Hl; simpl in Hl; lia]).
      destruct (Z.ltb_spec 5 t) as [Ht6 | Ht5].
      * wp_go. exists [], tvs. split; [done |]. split; [| done].
        apply retried_none; lia.
      * wp_go. eapply wp_mono; [apply capture_spec |].
        intros r o (data & tvs1 & -> & Hcap). cbv beta iota.
        eapply wp_mono; [apply IH; lia |].
        intros r' o' (cws' & tvs' & -> & Hret & H6).
        exists cws', tvs'. split; [done |].
        rewrite !captures_app, captures_vprint, Hcap.
        split; [| done]. apply retried_cons; [lia | done | done].
    + wp_go. exists cws, tvs. split; [done |]. split; [| done].
      apply retried_none; [done |]. intros _.
      apply andb_false_iff in Hc as [Hc | Hc].
      * left. by apply negb_false_iff, Z.eqb_eq in Hc.
      * right. by intros ->.
Qed.

(** One delay setting: the capture and at most six retries, each retry
    because no codeword was decoded.  [excluded] tells that the delay
    was not added. *)
Definition delay_step (valid_delays : list Z) (delay : Z)
    (caps : list (list Z)) (valid_delays' : list Z) : Prop :=
  (1 ≤ length caps ≤ 7)%nat
  ∧ (cw_mask = 0 → length caps = 1%nat)
  ∧ (∀ data, data ∈ removelast caps → decoded data = [])
  ∧ ((length caps < 7)%nat → cw_mask ≠ 0 →
     ∃ data, last caps = Some data ∧ decoded data ≠ [])
  ∧ (cw_mask ≠ 0 → (∀ data, last caps = Some data → decoded data = []) →
     valid_delays' = valid_delays)
  ∧ (valid_delays' = valid_delays ∨ valid_delays' = valid_delays ++ [delay]).

Lemma delay_body_spec valid_delays delay h :
  wp (delay_body_ valid_delays delay) h
     (λ r o, ∃ valid_delays',
        r = Ret valid_delays'
        ∧ delay_step valid_delays delay (captures o) valid_delays').
Proof.
  unfold delay_body. wp_go. unfold py_lshift.
  destruct (Z.ltb_spec cw_shift 0); [lia |]. wp_go.
  eapply wp_mono; [apply set_dio_delay_spec |].
  intros r o [-> ->]. cbv beta iota. wp_step.
  eapply wp_mono; [apply capture_spec |].
  intros r o (data & tvs & -> & Hcap). cbv beta iota. wp_step.
  eapply wp_mono; [apply (retry_loop_spec 6 0); lia |].
  intros r o' (cws' & tvs' & -> & (H1 & H2 & H3 & H4 & H5) & H6).
  cbv beta iota.
  set (caps := captures o') in *.
  assert (Hall : ∀ o3, captures o3 = [] →
    captures ((if verbose
               then [EvPrint "INFO   : Testing delay {} on AWG {}..."
                       [PInt delay; PInt awg]]
               else [])
              ++ [] ++ (clamp_warnings delay
                        ++ delay_writes awg strb_mask
                             (Z.lor (Z.shiftl cw_mask cw_shift) vld_mask)
                             (strobe_side delay) (data_side delay))
              ++ o ++ o' ++ o3)
    = data :: caps).
  { intros o3 Ho3.
    rewrite !captures_app, captures_vprint, captures_clamp_warnings,
      captures_delay_writes, Hcap, Ho3.
    simpl. rewrite app_nil_r. reflexivity. }
  assert (Hstep : ∀ vd',
    (cw_mask ≠ 0 → cws' = [] → vd' = valid_delays) →
    (vd' = valid_delays ∨ vd' = valid_delays ++ [delay]) →
    delay_step valid_delays delay (data :: caps) vd').
  { intros vd' Hex Hor. unfold delay_step. unfold len in *.
    assert (Hlast : last (data :: caps)
                    = Some (default data (last caps))).
    { rewrite last_cons. by destruct (last caps). }
    assert (Hcws : cws' = decoded (default data (last caps))).
    { rewrite H2. by destruct (last caps). }
    repeat split.
    - simpl. lia.
    - simpl. lia.
    - intros Hm. destruct caps; [done |]. by destruct (H3 ltac:(done)).
    - intros d Hd. destruct caps as [| c cs] eqn:Hc;
        [by apply elem_of_nil in Hd |].
      rewrite <- Hc in *.
      replace (removelast (data :: caps)) with (data :: removelast caps) in Hd
        by (by rewrite Hc).
      apply elem_of_cons in Hd as [-> | Hd]; [| by apply H4].
      destruct (H3 ltac:(by rewrite Hc)) as [_ ?]. done.
    - intros Hlt Hm. exists (default data (last caps)). split; [done |].
      rewrite <- Hcws. destruct H5 as [? | ?]; [simpl in Hlt; lia | done | done].
    - intros Hm Hd. apply Hex; [done |]. rewrite Hcws. by apply Hd.
    - done. }
  destruct (negb (cw_mask =? 0) && (len cws' =? 0)) eqn:Hc.
  - wp_go. exists valid_delays. split; [done |].
    rewrite Hall by (by rewrite ?captures_app, ?captures_vprint).
    apply Hstep; auto.
  - assert (Hne : cw_mask ≠ 0 → cws' ≠ []).
    { intros Hm ->. apply andb_false_iff in Hc as [Hc | Hc]; [| done].
      by apply negb_false_iff, Z.eqb_eq in Hc. }
    destruct (negb (len tvs' =? 0)).
    + wp_go. exists valid_delays. split; [done |].
      rewrite Hall by (by rewrite ?captures_app, ?captures_vprint).
      apply Hstep; auto.
    + wp_step. eapply wp_mono; [apply check_loop_spec |].
      intros r o3 (Ho3 & b & -> & _). cbv beta iota.
      destruct b; wp_go; eexists; (split; [done |]);
        rewrite Hall by (by rewrite ?captures_app, ?Ho3);
        apply Hstep; auto; intros Hm ->; by destruct (Hne Hm).
Qed.

(** The whole sweep visits every delay setting. *)
Lemma delay_loop_spec delays : ∀ valid_delays h,
  wp (delay_loop_ delays valid_delays) h
     (λ r o, ∃ added,
        r = Ret (valid_delays ++ added) ∧ sublist added delays
        ∧ (length delays ≤ length (captures o) ≤ 7 * length delays)%nat).
Proof.
  induction delays as [| delay delays IH]; intros vd h; cbn [delay_loop].
  - wp_go. exists []. by rewrite app_nil_r.
  - wp_step. eapply wp_mono; [apply delay_body_spec |].
    intros r o (vd' & -> & (Hn1 & Hn2) & _ & _ & _ & _ & Hvd).
    cbv beta iota. eapply wp_mono; [apply IH |].
    intros r o' (added & -> & Hsub & Hn). cbv beta.
    rewrite captures_app, length_app.
    destruct Hvd as [-> | ->].
    + exists added. split; [done |]. split; [by apply sublist_cons |].
      simpl. lia.
    + exists (delay :: added). rewrite <- app_assoc. split; [done |].
      split; [by apply sublist_skip |]. simpl. lia.
Qed.
End find_valid_delays_facts.

(** ** The recovery loop of the symmetry check *)

(** The verdict of the symmetry check on one captured trace. *)
Definition shot_ok (bits : list Z) (data : list Z) : bool :=
  match _is_dio_strb_symmetric data bits with
  | Ret true => true
  | _ => false
  end.

(** The verdicts on the traces captured during a run, in order. *)
Definition shots (bits : list Z) (out : list event) : list bool :=
  shot_ok bits <$> captures out.

(** Number of times the reference clock was switched to internal. *)
Definition is_clock_reset (e : event) : bool :=
  match e with
  | EvSetParam name v =>
      String.eqb name "system_clocks_referenceclock_source" && (v =? 0)
  | _ => false
  end.

Definition resyncs (out : list event) : nat :=
  length (filter (λ e, is_clock_reset e = true) out).

(** Number of asymmetric captures. *)
Definition misses (s : list bool) : nat :=
  length (filter (λ b : bool, b = false) s).

(** The six verdicts from position [k] on are all [v]. *)
Definition window (s : list bool) (k : nat) (v : bool) : Prop :=
  ∀ j, (j < 6)%nat → s !! (k + j)%nat = Some v.

Lemma resyncs_app o1 o2 : resyncs (o1 ++ o2) = (resyncs o1 + resyncs o2)%nat.
Proof. unfold resyncs. by rewrite filter_app, length_app. Qed.

Lemma resyncs_vprint (verbose : bool) text args :
  resyncs (if verbose then [EvPrint text args] else []) = 0%nat.
Proof. by destruct verbose. Qed.

Lemma seqZ_0_4 : seqZ 0 4 = [0; 1; 2; 3].
Proof. reflexivity. Qed.

(** The list ends with exactly [c] verdicts [v]. *)
Definition trailing (l : list bool) (v : bool) (c : nat) : Prop :=
  (c ≤ length l)%nat
  ∧ (∀ i, (length l - c ≤ i < length l)%nat → l !! i = Some v)
  ∧ ((c < length l)%nat → l !! (length l - c - 1)%nat = Some (negb v)).

Definition no_window (l : list bool) : Prop := ∀ k v, ¬ window l k v.

Lemma lookup_snoc (l : list bool) x i :
  (l ++ [x]) !! i
  = if decide (i < length l)%nat then l !! i
    else if decide (i = length l) then Some x else None.
Proof.
  destruct (decide (i < length l)%nat); [by apply lookup_app_l |].
  destruct (decide (i = length l)) as [-> | Hne].
  - by rewrite list_lookup_middle.
  - apply lookup_ge_None_2. rewrite length_app. simpl. lia.
Qed.

Lemma window_length l k v : window l k v → (k + 6 ≤ length l)%nat.
Proof.
  intros H. specialize (H 5%nat ltac:(lia)). apply lookup_lt_Some in H. lia.
Qed.

Lemma trailing_nil v : trailing [] v 0.
Proof. split; [done |]. split; simpl; intros; lia. Qed.

Lemma trailing_snoc_same l v c :
  trailing l v c → trailing (l ++ [v]) v (S c).
Proof.
  intros (H1 & H2 & H3). unfold trailing. rewrite length_app. simpl.
  split; [lia |]. split.
  - intros i Hi. rewrite lookup_snoc.
    destruct (decide (i < length l)%nat); [apply H2; lia |].
    destruct (decide (i = length l)); [done | lia].
  - intros Hc. rewrite lookup_snoc.
    destruct (decide (length l + 1 - S c - 1 < length l)%nat); [| lia].
    replace (length l + 1 - S c - 1)%nat with (length l - c - 1)%nat by lia.
    apply H3. lia.
Qed.

Lemma trailing_snoc_other l x : trailing (l ++ [x]) (negb x) 0.
Proof.
  unfold trailing. rewrite length_app. simpl. split; [lia |].
  split; [intros; lia |]. intros _. rewrite lookup_snoc.
  destruct (decide (length l + 1 - 0 - 1 < length l)%nat); [lia |].
  destruct (decide (length l + 1 - 0 - 1 = length l)%nat); [| lia].
  by rewrite negb_involutive.
Qed.

Lemma window_snoc_inside l x k v :
  window (l ++ [x]) k v → (k + 6 ≤ length l)%nat → window l k v.
Proof.
  intros H Hk j Hj. specialize (H j Hj). rewrite lookup_snoc in H.
  destruct (decide (k + j < length l)%nat); [done | lia].
Qed.

Lemma window_snoc_end l x k v :
  no_window l → window (l ++ [x]) k v → (k + 6 = length l + 1)%nat ∧ v = x.
Proof.
  intros Hno H. pose proof (window_length _ _ _ H) as Hlen.
  rewrite length_app in Hlen. simpl in Hlen.
  destruct (decide (k + 6 ≤ length l)%nat) as [Hin | Hout].
  - destruct (Hno k v). by eapply window_snoc_inside.
  - split; [lia |]. specialize (H 5%nat ltac:(lia)). rewrite lookup_snoc in H.
    destruct (decide (k + 5 < length l)%nat); [lia |].
    destruct (decide (k + 5 = length l)%nat); [by simplify_eq | done].
Qed.

Lemma no_window_snoc l x c :
  no_window l → trailing (l ++ [x]) x c → (c ≤ 5)%nat → no_window (l ++ [x]).
Proof.
  intros Hno (H1 & H2 & H3) Hc k v Hw.
  destruct (window_snoc_end _ _ _ _ Hno Hw) as [Hk ->].
  rewrite length_app in *. simpl in *.
  specialize (H3 ltac:(lia)).
  specialize (Hw (length l + 1 - c - 1 - k)%nat ltac:(lia)).
  replace (k + (length l + 1 - c - 1 - k))%nat
    with (length l + 1 - c - 1)%nat in Hw by lia.
  rewrite H3 in Hw. by destruct x.
Qed.

Lemma window_snoc_last l x :
  no_window l → trailing (l ++ [x]) x 6 →
  (6 ≤ length (l ++ [x]))%nat
  ∧ window (l ++ [x]) (length (l ++ [x]) - 6) x
  ∧ ∀ k v, window (l ++ [x]) k v → k = (length (l ++ [x]) - 6)%nat.
Proof.
  intros Hno (H1 & H2 & H3). split; [done |]. split.
  - intros j Hj. apply H2. lia.
  - intros k v Hw. destruct (window_snoc_end _ _ _ _ Hno Hw) as [Hk _].
    rewrite length_app. simpl. lia.
Qed.

Lemma shot_ok_run bits data :
  Forall (λ bit, 0 ≤ bit) bits →
  _is_dio_strb_symmetric data bits = Ret (shot_ok bits data).
Proof.
  intros Hb. unfold shot_ok. rewrite is_symmetric_forallb by done.
  by destruct (forallb _ bits).
Qed.

Lemma misses_app s1 s2 : misses (s1 ++ s2) = (misses s1 + misses s2)%nat.
Proof. unfold misses. by rewrite filter_app, length_app. Qed.

Lemma shots_app bits o1 o2 : shots bits (o1 ++ o2) = shots bits o1 ++ shots bits o2.
Proof. unfold shots. by rewrite captures_app, fmap_app. Qed.

Lemma shots_vprint bits (verbose : bool) text args :
  shots bits (if verbose then [EvPrint text args] else []) = [].
Proof. by destruct verbose. Qed.

Lemma shots_getv bits path data :
  shots bits [EvGetv path data] = [shot_ok bits data].
Proof. done. Qed.

Lemma shots_quiet bits o : captures o = [] → shots bits o = [].
Proof. unfold shots. by intros ->. Qed.

Lemma resyncs_getv path data : resyncs [EvGetv path data] = 0%nat.
Proof. done. Qed.

Create Rewrite HintDb events.
#[global] Hint Rewrite shots_app shots_vprint shots_getv resyncs_app resyncs_vprint
  resyncs_getv misses_app @app_nil_r @app_nil_l Nat.add_0_r : events.

Section strobe_loop_facts.
Context (dev : device) (verbose : bool).

Lemma save_enables_spec awgs : ∀ enables h,
  wp (save_enables dev awgs enables) h
     (λ r o, ∃ enables', r = Ret enables' ∧ length enables' = length enables
             ∧ captures o = [] ∧ resyncs o = 0%nat).
Proof.
  induction awgs as [| awg awgs IH]; intros enables h; cbn [save_enables].
  - wp_go. by exists enables.
  - wp_go. eapply wp_mono; [apply IH |].
    intros r o (enables' & -> & Hlen & Hc & Hr). exists enables'.
    rewrite length_insert in Hlen.
    by rewrite !captures_app, !resyncs_app, Hc, Hr.
Qed.

Lemma restore_enables_spec enables h :
  length enables = 4%nat →
  wp (for_each (seqZ 0 4) (λ awg,
        v ← lift (py_getitem enables awg);
        seti (format1 "awgs/{}/enable" awg) v)) h
     (λ r o, r = Ret () ∧ captures o = [] ∧ resyncs o = 0%nat
             ∧ ∃ o' v, o = o' ++ [EvSeti "awgs/3/enable" v]).
Proof.
  intros Hlen.
  destruct enables as [| v0 [| v1 [| v2 [| v3 [| ? ?]]]]]; try done.
  eapply wp_mono.
  - apply (wp_for_each _ _ (λ awg,
      [EvSeti (format1 "awgs/{}/enable" awg)
         (default 0 ([v0; v1; v2; v3] !! Z.to_nat awg))])).
    intros awg h' Hawg. rewrite seqZ_0_4 in Hawg.
    repeat (apply elem_of_cons in Hawg as [-> | Hawg]; [by wp_go |]).
    by apply elem_of_nil in Hawg.
  - intros r o [-> ->]. split; [done |]. split; [done |]. split; [done |].
    by exists [EvSeti "awgs/0/enable" v0; EvSeti "awgs/1/enable" v1;
               EvSeti "awgs/2/enable" v2], v3.
Qed.

(** One recovery: no capture, one clock reset, and the run ends with the
    write that restores the enable flag of the last AWG. *)
Lemma resync_spec h :
  wp (resync dev verbose) h
     (λ r o, r = Ret () ∧ captures o = [] ∧ resyncs o = 1%nat
             ∧ ∃ o' v, o = o' ++ [EvSeti "awgs/3/enable" v]).
Proof.
  unfold resync. wp_go.
  eapply wp_mono; [apply save_enables_spec |].
  intros r o (enables & -> & Hlen & Hc & Hr). cbv beta iota. wp_go.
  eapply wp_mono; [by apply restore_enables_spec |].
  intros r o2 (-> & Hc2 & Hr2 & o' & v & Ho2). split; [done |].
  rewrite !captures_app, !resyncs_app, !captures_vprint, !resyncs_vprint,
    Hc, Hr, Hc2, Hr2.
  split; [done |]. split; [done |].
  rewrite Ho2. eexists _, v. rewrite !app_assoc. reflexivity.
Qed.
(** The loop, started with [g] symmetric or [b] asymmetric captures in a
    row behind it ([past] are the verdicts so far). *)
Lemma strobe_loop_inv bits fuel : ∀ past g b h,
  Forall (λ bit, 0 ≤ bit) bits →
  trailing past true g → trailing past false b →
  (g ≤ 5)%nat → (b ≤ 5)%nat → no_window past →
  wp (strobe_loop dev fuel verbose bits (Z.of_nat g) (Z.of_nat b)) h
     (λ r o,
        resyncs o = misses (shots bits o)
        ∧ match r with
          | Ret v =>
              let s := past ++ shots bits o in
              (6 ≤ length s)%nat ∧ window s (length s - 6) v
              ∧ ∀ k v', window s k v' → k = (length s - 6)%nat
          | OutOfFuel =>
              length (shots bits o) = fuel ∧ no_window (past ++ shots bits o)
          | Raise _ => False
          end).
Proof.
  induction fuel as [| fuel IH]; intros past g b h Hbits Hg Hb Hg5 Hb5 Hno;
    cbn [strobe_loop].
  - wp_go. split; [done |]. split; [done |]. by rewrite app_nil_r.
  - wp_go. set (data := getv_reply dev h _).
    rewrite (shot_ok_run bits data Hbits). wp_go.
    destruct (shot_ok bits data) eqn:Hshot.
    + wp_go.
      assert (Htr : trailing (past ++ [true]) true (S g))
        by by apply trailing_snoc_same.
      replace (Z.of_nat g + 1) with (Z.of_nat (S g)) by lia.
      destruct (Z.ltb_spec 5 (Z.of_nat (S g))) as [Hdone | Hmore].
      * wp_go. assert (S g = 6%nat) as Heq by lia. rewrite Heq in *.
        autorewrite with events. fold (shots bits []). rewrite Hshot.
        split; [done |]. cbv zeta. replace (shots bits []) with (@nil bool) by done.
        by apply window_snoc_last.
      * wp_go. eapply wp_mono.
        { apply (IH (past ++ [true]) (S g) 0%nat); try done; try lia.
          - apply (trailing_snoc_other past true).
          - by eapply no_window_snoc; [| exact Htr | lia]. }
        intros r o [Hr Hpost]. autorewrite with events. rewrite Hshot.
        split; [by rewrite Hr |].
        destruct r as [v | e |]; [| done |].
        -- cbv zeta in *. by rewrite (app_assoc past [true]).
        -- destruct Hpost as [Hlen Hnw]. split; [simpl; by rewrite Hlen |].
           by rewrite (app_assoc past [true]).
    + wp_step. eapply wp_mono; [apply resync_spec |].
      intros r o (-> & Hc & Hr & _). cbv beta iota.
      assert (Htr : trailing (past ++ [false]) false (S b))
        by by apply trailing_snoc_same.
      replace (Z.of_nat b + 1) with (Z.of_nat (S b)) by lia.
      destruct (Z.ltb_spec 5 (Z.of_nat (S b))) as [Hdone | Hmore].
      * wp_go. assert (S b = 6%nat) as Heq by lia. rewrite Heq in *.
        autorewrite with events. rewrite (shots_quiet bits o Hc), Hr, Hshot.
        autorewrite with events.
        split; [done |]. cbv zeta. by apply window_snoc_last.
      * eapply wp_mono.
        { apply (IH (past ++ [false]) 0%nat (S b)); try done; try lia.
          - apply (trailing_snoc_other past false).
          - by eapply no_window_snoc; [| exact Htr | lia]. }
        intros r o2 [Hr2 Hpost]. autorewrite with events.
        rewrite (shots_quiet bits o Hc), Hr, Hr2, Hshot.
        autorewrite with events.
        split; [done |].
        destruct r as [v | e |]; [| done |].
        -- cbv zeta in *. by rewrite (app_assoc past [false]).
        -- destruct Hpost as [Hlen Hnw]. split; [simpl; by rewrite Hlen |].
           by rewrite (app_assoc past [false]).
Qed.
End strobe_loop_facts.

(** ** The Calibration Orchestrator *)

Lemma elem_of_foldl_intersection (s : gset Z) (sets : list (gset Z)) x :
  x ∈ foldl (∩) s sets ↔ x ∈ s ∧ ∀ t, t ∈ sets → x ∈ t.
Proof.
  revert s. induction sets as [| t sets IH]; intros s; simpl.
  - split; [intros H; split; [done | by intros ? ?%elem_of_nil] | by intros [? _]].
  - rewrite IH, elem_of_intersection. split.
    + intros [[Hs Ht] Hall]. split; [done |].
      intros t' [-> | Ht']%elem_of_cons; [done | by apply Hall].
    + intros [Hs Hall]. split; [split; [done | apply Hall; by left] |].
      intros t' Ht'. apply Hall. by right.
Qed.

Lemma py_set_intersection_spec sets :
  sets ≠ [] →
  ∃ common, py_set_intersection sets = Ret common
            ∧ ∀ x, x ∈ common ↔ ∀ s, s ∈ sets → x ∈ s.
Proof.
  destruct sets as [| s sets]; [done |]. intros _. eexists. split; [done |].
  intros x. rewrite elem_of_foldl_intersection. split.
  - intros [Hs Hall] t [-> | Ht]%elem_of_cons; [done | by apply Hall].
  - intros Hall. split; [apply Hall; by left |]. intros t Ht. apply Hall. by right.
Qed.

Lemma foldl_max_spec l : ∀ x,
  foldl Z.max x l ∈ x :: l ∧ ∀ y, y ∈ x :: l → y ≤ foldl Z.max x l.
Proof.
  induction l as [| z l IH]; intros x; simpl.
  - split; [by left |]. intros y [-> | ?%elem_of_nil]%elem_of_cons; [lia | done].
  - destruct (IH (Z.max x z)) as [Hin Hmax]. split.
    + apply elem_of_cons in Hin as [Heq | Hin]; [| by right; right].
      rewrite Heq. destruct (Z.max_spec x z) as [[_ ->] | [_ ->]];
        [right; by left | by left].
    + intros y Hy. apply elem_of_cons in Hy as [-> | Hy].
      * etrans; [| apply Hmax; by left]. lia.
      * apply elem_of_cons in Hy as [-> | Hy].
        -- etrans; [| apply Hmax; by left]. lia.
        -- apply Hmax. by right.
Qed.

Lemma py_max_spec (s : gset Z) :
  s ≠ ∅ → ∃ d, py_max s = Ret d ∧ d ∈ s ∧ ∀ x, x ∈ s → x ≤ d.
Proof.
  intros Hne. unfold py_max. destruct (elements s) as [| x l] eqn:Hel.
  - by apply elements_empty_inv, leibniz_equiv in Hel.
  - destruct (foldl_max_spec l x) as [Hin Hmax]. eexists. split; [done |].
    split.
    + apply elem_of_elements. by rewrite Hel.
    + intros y Hy. apply Hmax. rewrite <- Hel. by apply elem_of_elements.
Qed.

Lemma py_max_empty : py_max ∅ = Raise ValueError.
Proof. unfold py_max. by rewrite elements_empty. Qed.

(** Every register of the instrument reads a non-negative value. *)
Definition nonneg_device (dev : device) : Prop :=
  ∀ h path, 0 ≤ geti_reply dev h path.

(** The delay search run on each channel in turn, with the Valid-Delay Set
    of each. *)
Fixpoint search_all (dev : device) (verbose : bool)
    (awgs_and_sequences : list (Z * list Z)) : dio (list (gset Z)) :=
  match awgs_and_sequences with
  | [] => ret []
  | (awg, sequence) :: rest =>
      valid_delays ← _find_valid_delays dev awg sequence verbose;
      sets ← search_all dev verbose rest;
      ret (valid_delays :: sets)
  end.

Lemma bind_run {A B} (m : dio A) (k : A → dio B) h :
  (m ≫= k) h
  = match m h with
    | (Ret a, o1) => let '(r, o2) := k a (h ++ o1) in (r, o1 ++ o2)
    | (Raise e, o1) => (Raise e, o1)
    | (OutOfFuel, o1) => (OutOfFuel, o1)
    end.
Proof. done. Qed.

Lemma vprint_run (verbose : bool) text args h :
  vprint verbose text args h
  = (Ret (), if verbose then [EvPrint text args] else []).
Proof. by destruct verbose. Qed.

Lemma bind_lift_ret {A B} (a : A) (k : A → dio B) h :
  (lift (Ret a) ≫= k) h = k a h.
Proof. rewrite bind_run. cbn. rewrite app_nil_r. by destruct (k a h). Qed.

Section calibrate_facts.
Context (dev : device) (verbose : bool).

Lemma search_all_cons awg sequence rest h sets o :
  search_all dev verbose ((awg, sequence) :: rest) h = (Ret sets, o) →
  ∃ s o1 sets' o2,
    _find_valid_delays dev awg sequence verbose h = (Ret s, o1)
    ∧ search_all dev verbose rest (h ++ o1) = (Ret sets', o2)
    ∧ sets = s :: sets' ∧ o = o1 ++ o2.
Proof.
  cbn [search_all]. rewrite bind_run.
  destruct (_find_valid_delays dev awg sequence verbose h)
    as [[s | e |] o1] eqn:H1; [| done | done].
  rewrite bind_run.
  destruct (search_all dev verbose rest (h ++ o1))
    as [[sets' | e |] o2] eqn:H2; [| done | done].
  cbn. intros [= <- <-]. exists s, o1, sets', o2. by rewrite app_nil_r.
Qed.

Lemma search_loop_found awgs_and_sequences : ∀ acc h sets o,
  search_all dev verbose awgs_and_sequences h = (Ret sets, o) →
  Forall (λ s, s ≠ ∅) sets →
  search_loop dev verbose awgs_and_sequences acc h
  = (Ret (Some (acc ++ sets)), o).
Proof.
  induction awgs_and_sequences as [| [awg sequence] rest IH];
    intros acc h sets o Hrun Hne.
  - injection Hrun as <- <-. by rewrite app_nil_r.
  - apply search_all_cons in Hrun as (s & o1 & sets' & o2 & H1 & H2 & -> & ->).
    apply Forall_cons in Hne as [Hs Hne].
    cbn [search_loop]. rewrite bind_run, H1.
    rewrite bool_decide_eq_false_2 by done. cbn [negb].
    rewrite (IH (acc ++ [s]) _ sets' o2 H2 Hne).
    by rewrite <- app_assoc.
Qed.

Lemma search_loop_empty pre : ∀ awg sequence post acc h sets o,
  search_all dev verbose pre h = (Ret sets, o) →
  Forall (λ s, s ≠ ∅) sets →
  (_find_valid_delays dev awg sequence verbose (h ++ o)).1 = Ret ∅ →
  (search_loop dev verbose (pre ++ (awg, sequence) :: post) acc h).1 = Ret None.
Proof.
  induction pre as [| [awg0 sequence0] pre IH];
    intros awg sequence post acc h sets o Hrun Hne Hempty.
  - injection Hrun as <- <-. rewrite app_nil_r in Hempty.
    cbn [app search_loop]. rewrite bind_run.
    destruct (_find_valid_delays dev awg sequence verbose h) as [r o1].
    simpl in Hempty. subst r.
    rewrite bool_decide_eq_true_2 by done. cbn [negb].
    rewrite bind_run, vprint_run. done.
  - apply search_all_cons in Hrun as (s & o1 & sets' & o2 & H1 & H2 & -> & ->).
    apply Forall_cons in Hne as [Hs Hne].
    cbn [app search_loop]. rewrite bind_run, H1.
    rewrite bool_decide_eq_false_2 by done. cbn [negb].
    rewrite app_assoc in Hempty.
    pose proof (IH awg sequence post (acc ++ [s]) _ sets' o2 H2 Hne Hempty) as H.
    by destruct (search_loop dev verbose (pre ++ (awg, sequence) :: post)
                   (acc ++ [s]) (h ++ o1)).
Qed.

Lemma configure_delay_nonneg max_valid_delay awg h :
  nonneg_device dev →
  (configure_delay dev verbose max_valid_delay awg h).1 = Ret ().
Proof.
  intros Hdev.
  assert (Hsh : ∀ a h' p, py_lshift a (geti_reply dev h' p)
                          = Ret (Z.shiftl a (geti_reply dev h' p))).
  { intros a h' p. unfold py_lshift.
    destruct (Z.ltb_spec (geti_reply dev h' p) 0); [| done].
    specialize (Hdev h' p). lia. }
  cut (wp (configure_delay dev verbose max_valid_delay awg) h
          (λ r _, r = Ret ())); [done |].
  unfold configure_delay.
  wp_go. rewrite Hsh. wp_go. rewrite Hsh. wp_go. rewrite Hsh. wp_go.
  eapply wp_mono; [apply set_dio_delay_spec |]. by intros r o [-> _].
Qed.

Lemma configure_all_nonneg max_valid_delay
    (awgs_and_sequences : list (Z * list Z)) : ∀ h,
  nonneg_device dev →
  (for_each awgs_and_sequences (λ '(awg, _),
     configure_delay dev verbose max_valid_delay awg) h).1 = Ret ().
Proof.
  induction awgs_and_sequences as [| [awg sequence] rest IH]; intros h Hdev;
    [done |].
  cbn [for_each]. rewrite bind_run.
  pose proof (configure_delay_nonneg max_valid_delay awg h Hdev) as H.
  destruct (configure_delay dev verbose max_valid_delay awg h) as [r o].
  simpl in H. subst r.
  specialize (IH (h ++ o) Hdev).
  by destruct (for_each rest _ (h ++ o)) as [r o2]; simpl in *; subst.
Qed.
End calibrate_facts.

(** What the orchestrator is to do, case by case: [calibrated ... b applied]
    tells the result [b] and the delay applied to every channel, if any.
    [h_check] is the history when the symmetry check starts, [h_search]
    when the first delay search starts. *)
Definition h_check (verbose : bool) (h : list event) : list event :=
  h ++ (if verbose then [EvPrint "INFO   : Calibrating DIO delays" []] else []).

Definition h_search (verbose : bool) (h o1 : list event) : list event :=
  (h_check verbose h ++ o1)
  ++ (if verbose then [EvPrint "INFO   : Strobe is symmetric" []] else []).

Inductive calibrated (dev : device) (fuel : nat)
    (awgs_and_sequences : list (Z * list Z)) (verbose : bool)
    (h : list event) : bool → option Z → Prop :=
| calibrated_asymmetric o1 :
    _ensure_symmetric_strobe dev fuel verbose (h_check verbose h)
    = (Ret false, o1) →
    calibrated dev fuel awgs_and_sequences verbose h false None
| calibrated_no_delay o1 pre awg sequence post sets o2 :
    _ensure_symmetric_strobe dev fuel verbose (h_check verbose h)
    = (Ret true, o1) →
    awgs_and_sequences = pre ++ (awg, sequence) :: post →
    search_all dev verbose pre (h_search verbose h o1) = (Ret sets, o2) →
    Forall (λ s, s ≠ ∅) sets →
    (_find_valid_delays dev awg sequence verbose
       (h_search verbose h o1 ++ o2)).1 = Ret ∅ →
    calibrated dev fuel awgs_and_sequences verbose h false None
| calibrated_common o1 sets o2 d :
    _ensure_symmetric_strobe dev fuel verbose (h_check verbose h)
    = (Ret true, o1) →
    search_all dev verbose awgs_and_sequences (h_search verbose h o1)
    = (Ret sets, o2) →
    Forall (λ s, s ≠ ∅) sets →
    sets ≠ [] →
    (∀ s, s ∈ sets → d ∈ s) →
    (∀ x, (∀ s, s ∈ sets → x ∈ s) → x ≤ d) →
    calibrated dev fuel awgs_and_sequences verbose h true (Some d).

(** The second loop of [calibrate_dio_protocol], for a given delay. *)
Definition configure_all (dev : device) (verbose : bool)
    (awgs_and_sequences : list (Z * list Z)) (delay : Z) : dio () :=
  for_each awgs_and_sequences (λ '(awg, _),
    configure_delay dev verbose delay awg).

Lemma calibrate_run dev fuel awgs_and_sequences verbose h b applied :
  calibrated dev fuel awgs_and_sequences verbose h b applied →
  match applied with
  | None => (calibrate_dio_protocol dev fuel awgs_and_sequences verbose h).1
            = Ret b
  | Some d =>
      ∃ o_pre r o_apply,
        configure_all dev verbose awgs_and_sequences d (h ++ o_pre)
        = (r, o_apply)
        ∧ calibrate_dio_protocol dev fuel awgs_and_sequences verbose h
          = (match r with
             | Ret _ => Ret b
             | Raise e => Raise e
             | OutOfFuel => OutOfFuel
             end, o_pre ++ o_apply)
        ∧ (nonneg_device dev → r = Ret ())
  end.
Proof.
  unfold calibrate_dio_protocol.
  intros [o1 Hsym | o1 pre awg sequence post sets o2 Hsym -> Hall Hne Hempty
          | o1 sets o2 d Hsym Hall Hne Hnil Hin Hmax];
    unfold h_search, h_check in *;
    rewrite bind_run, vprint_run, bind_run, Hsym; cbn [negb].
  - by rewrite bind_run, vprint_run.
  - rewrite bind_run, vprint_run, bind_run.
    pose proof (search_loop_empty dev verbose pre awg sequence post [] _ sets o2
                  Hall Hne Hempty) as H.
    destruct (search_loop dev verbose (pre ++ (awg, sequence) :: post) [] _)
      as [r o3]. simpl in H. by subst r.
  - rewrite bind_run, vprint_run, bind_run.
    rewrite (search_loop_found dev verbose _ [] _ sets o2 Hall Hne).
    cbn [app].
    destruct (py_set_intersection_spec sets Hnil) as (common & Hcap & Hcommon).
    assert (Hd : d ∈ common) by by apply Hcommon.
    destruct (py_max_spec common) as (d' & Hd'max & Hd' & Hmax'); [set_solver |].
    assert (d' = d) as ->.
    { apply Z.le_antisymm; [| by apply Hmax']. apply Hmax. by apply Hcommon. }
    rewrite Hcap, bind_lift_ret, Hd'max, bind_lift_ret.
    rewrite bind_run, vprint_run, bind_run, vprint_run, bind_run.
    fold (configure_all dev verbose awgs_and_sequences d).
    match goal with
    | |- context [configure_all dev verbose awgs_and_sequences d ?hist] =>
        set (hist3 := hist)
    end.
    destruct (configure_all dev verbose awgs_and_sequences d hist3)
      as [r o_apply] eqn:Happly.
    eexists _, r, o_apply. split; [| split].
    + rewrite <- Happly. f_equal. unfold hist3.
      rewrite <- !app_assoc. reflexivity.
    + destruct r as [[] | e |]; cbn; rewrite ?app_nil_r, <- ?app_assoc;
        reflexivity.
    + intros Hdev.
      pose proof (configure_all_nonneg dev verbose d awgs_and_sequences hist3
                    Hdev) as H.
      unfold configure_all in Happly. rewrite Happly in H. done.
Qed.

(** When the Valid-Delay Sets have no delay in common, [max] is called on
    an empty set. *)
Lemma calibrate_empty_intersection dev fuel awgs_and_sequences verbose h
    o1 sets o2 :
  _ensure_symmetric_strobe dev fuel verbose (h_check verbose h)
  = (Ret true, o1) →
  search_all dev verbose awgs_and_sequences (h_search verbose h o1)
  = (Ret sets, o2) →
  Forall (λ s, s ≠ ∅) sets →
  sets ≠ [] →
  (∀ x, ¬ ∀ s, s ∈ sets → x ∈ s) →
  (calibrate_dio_protocol dev fuel awgs_and_sequences verbose h).1
  = Raise ValueError.
Proof.
  unfold calibrate_dio_protocol, h_search, h_check.
  intros Hsym Hall Hne Hnil Hnone.
  rewrite bind_run, vprint_run, bind_run, Hsym. cbn [negb].
  rewrite bind_run, vprint_run, bind_run.
  rewrite (search_loop_found dev verbose _ [] _ sets o2 Hall Hne).
  cbn [app].
  destruct (py_set_intersection_spec sets Hnil) as (common & Hcap & Hcommon).
  assert (common = ∅) as ->.
  { apply set_eq. intros x. split; [| by intros ?%not_elem_of_empty].
    intros Hx. destruct (Hnone x). by apply Hcommon. }
  rewrite Hcap, bind_lift_ret, py_max_empty. rewrite bind_run. done.
Qed.

Lemma run_eta {A} (x : outcome A * list event) r : x.1 = r → x = (r, x.2).
Proof. intros <-. by destruct x. Qed.

(** ** Simulated instruments *)

(** Every register reads 1 and every capture is empty: a codeword mask is
    configured, but no codeword is ever seen. *)
Definition silent_device : device :=
  {| geti_reply := λ _ _, 1; getv_reply := λ _ _, [] |}.


(** A bus with the strobe on bit 30 (sampled on its rising edge), the
    valid signal on bit 31 (active high) and three codeword bits from bit
    0.  The instrument keeps its per-bit delay lines; a capture of AWG
    [awg] shows the codewords 1, 2, 3, 1 cleanly when the delay in force,
    [3 + strobe delay - data delay], is one of [good awg], and a codeword
    that changes with the strobe otherwise. *)
Definition ends_with (suffix path : string) : bool :=
  String.eqb
    (String.substring (String.length path - String.length suffix)
       (String.length suffix) path)
    suffix.

Definition sim_geti (path : string) : Z :=
  if ends_with "/dio/strobe/index" path then 30
  else if ends_with "/dio/valid/index" path then 31
  else if ends_with "/dio/valid/polarity" path then 2
  else if ends_with "/dio/strobe/slope" path then 1
  else if ends_with "/dio/mask/value" path then 7
  else 0.

(** The delay lines of [awg] after the events [h]; [index] is the bit
    selected by the last write to the index register. *)
Fixpoint sim_delays (awg : Z) (h : list event) (index : Z) (lines : gmap Z Z)
    : gmap Z Z :=
  match h with
  | [] => lines
  | EvSeti path v :: h' =>
      if String.eqb path (format1 "awgs/{}/dio/delay/index" awg)
      then sim_delays awg h' v lines
      else if String.eqb path (format1 "awgs/{}/dio/delay/value" awg)
      then sim_delays awg h' index (<[index := v]> lines)
      else sim_delays awg h' index lines
  | _ :: h' => sim_delays awg h' index lines
  end.

Definition sim_delay (awg : Z) (h : list event) : Z :=
  let lines := sim_delays awg h 0 ∅ in
  3 + default 0 (lines !! 30) - default 0 (lines !! 31).

Definition sim_strobe : Z := 2 ^ 30.
Definition sim_valid : Z := 2 ^ 31.

Definition sim_clean : list Z :=
  [sim_valid + 1; sim_valid + sim_strobe + 1;
   sim_valid + 2; sim_valid + sim_strobe + 2;
   sim_valid + 3; sim_valid + sim_strobe + 3;
   sim_valid + 1; sim_valid + sim_strobe + 1].

Definition sim_glitch : list Z :=
  [sim_valid + 1; sim_valid + sim_strobe + 2;
   sim_valid + 2; sim_valid + sim_strobe + 3].

Definition sim_raw : list Z :=
  [0; 0; sim_strobe; sim_strobe; 0; 0; sim_strobe; sim_strobe; 0].

Definition sim_getv (good : Z → list Z) (h : list event) (path : string)
    : list Z :=
  match filter (λ awg, path = "awgs/" +:+ str awg +:+ "/dio/data")
          [0; 1; 2; 3] with
  | awg :: _ =>
      if bool_decide (sim_delay awg h ∈ good awg) then sim_clean
      else sim_glitch
  | [] => sim_raw
  end.

Definition sim_device (good : Z → list Z) : device :=
  {| geti_reply := λ _ path, sim_geti path; getv_reply := sim_getv good |}.

Lemma sim_device_nonneg good : nonneg_device (sim_device good).
Proof.
  intros h path. cbn. unfold sim_geti.
  repeat match goal with |- context [if ?b then _ else _] => destruct b end;
    lia.
Qed.

(** Two channels with the delay windows of the scenario, and two with
    disjoint windows. *)
Definition windows_overlap (awg : Z) : list Z :=
  if awg =? 0 then [1; 2; 3; 4] else [2; 3; 4; 5].

Definition windows_apart (awg : Z) : list Z :=
  if awg =? 0 then [0; 1] else [5; 6].

Definition two_channels : list (Z * list Z) := [(0, [1; 2; 3]); (1, [1; 2; 3])].

Lemma windows_apart_nonempty :
  Forall (λ s : gset Z, s ≠ ∅) [{[0; 1]}; {[5; 6]}].
Proof. repeat constructor; set_solver. Qed.

(** After a clock recovery the next capture is symmetric; any other
    capture is not.  Every register reads 0. *)
Definition flaky_device : device :=
  {| geti_reply := λ _ _, 0;
     getv_reply := λ h _,
       match last h with
       | Some (EvSeti _ _) => []
       | _ => [1; 0; 0; 0; 1; 0]
       end |}.

Lemma flaky_loop fuel : ∀ h good_shots bad_shots,
  ((∃ h' p v, h = h' ++ [EvSeti p v]) ∧ good_shots = 0 ∧ bad_shots = 1)
  ∨ ((∀ p v, last h ≠ Some (EvSeti p v))
     ∧ 0 ≤ good_shots ≤ 1 ∧ bad_shots = 0) →
  wp (strobe_loop flaky_device fuel false [0] good_shots bad_shots) h
     (λ r _, r = OutOfFuel).
Proof.
  induction fuel as [| fuel IH]; intros h g b Hst; cbn [strobe_loop];
    [by wp_go |].
  wp_go. destruct Hst as [((h' & p & v & ->) & -> & ->) | (Hlast & Hg & ->)].
  - cbn [getv_reply flaky_device]. rewrite last_snoc.
    change (_is_dio_strb_symmetric [] [0]) with (Ret (A:=bool) true).
    wp_go. eapply wp_mono; [apply IH | done].
    right. split; [| lia]. intros p' v'. rewrite !app_nil_r, last_snoc. done.
  - assert (Hasym : getv_reply flaky_device h "raw/dios/0/data"
                    = [1; 0; 0; 0; 1; 0]).
    { cbn [getv_reply flaky_device].
      destruct (last h) as [[] |] eqn:Hl; try done. by destruct (Hlast path v). }
    rewrite Hasym.
    change (_is_dio_strb_symmetric [1; 0; 0; 0; 1; 0] [0])
      with (Ret (A:=bool) false).
    wp_go. eapply wp_mono; [apply resync_spec |].
    intros r o (-> & _ & _ & o' & v & ->). cbv beta iota.
    replace (5 <? 0 + 1) with false by done.
    eapply wp_mono; [apply IH | done].
    left. split; [| done]. eexists _, _, v. rewrite !app_assoc. reflexivity.
Qed.

(** * The claims *)

(** ** Bus Trace Analyzer *)

(** C3, as stated, does not hold: with valid polarity 0 (none) the valid
    bit is not watched.  Every sample is a sample point under slope 0, the
    valid bit (mask 2) changes at position 1 of the trace [0; 2], and no
    violation is recorded. *)
Lemma analyze_violation_any_polarity_counterexample :
  ¬ (∀ strb_mask strb_slope vld_mask vld_polarity cw_mask cw_shift data
       cws tvs n,
       _analyze_dio_data strb_mask strb_slope vld_mask vld_polarity cw_mask
         cw_shift data = Ret (cws, tvs) →
       (n ∈ tvs ↔
        ∃ ld d, pair_at data n = Some (ld, d)
                ∧ sample_point strb_mask strb_slope d ld
                ∧ (changes d ld vld_mask
                   ∨ changes d ld (Z.shiftl cw_mask cw_shift)))).
Proof.
  intros H.
  specialize (H 1 0 2 0 0 0 [0; 2] [] [] 1 eq_refl) as [_ H].
  eapply elem_of_nil, H. exists 0, 2. split; [done |]. split; [by left |].
  left. exists 1. by repeat split.
Qed.

(** C3, amended: a position is in the violation list that the analysis
    returns exactly when it is a sample point at which the valid bits
    change while the valid polarity is not 0, or the bits of the shifted
    codeword mask change.  (The analysis returns for every non-negative
    shift, lemma [analyze_total].) *)
Theorem analyze_violation_iff
    strb_mask strb_slope vld_mask vld_polarity cw_mask cw_shift data cws tvs n :
  _analyze_dio_data strb_mask strb_slope vld_mask vld_polarity cw_mask
    cw_shift data = Ret (cws, tvs) →
  n ∈ tvs ↔
  ∃ ld d, pair_at data n = Some (ld, d)
          ∧ sample_point strb_mask strb_slope d ld
          ∧ ((vld_polarity ≠ 0 ∧ changes d ld vld_mask)
             ∨ changes d ld (Z.shiftl cw_mask cw_shift)).
Proof.
  intros Hrun.
  assert (Hshort : ∀ l : list Z, (length l ≤ 1)%nat →
            ¬ ∃ ld d, pair_at l n = Some (ld, d)
                      ∧ sample_point strb_mask strb_slope d ld
                      ∧ ((vld_polarity ≠ 0 ∧ changes d ld vld_mask)
                         ∨ changes d ld (Z.shiftl cw_mask cw_shift))).
  { intros l Hl (ld & d & H & _). apply pair_at_Some in H as (k & _ & _ & H).
    apply lookup_lt_Some in H. lia. }
  destruct data as [| d0 data].
  - injection Hrun as <- <-.
    split; [by intros ?%elem_of_nil |].
    intros H. destruct (Hshort []); [simpl; lia | done].
  - destruct (Z.le_gt_cases 0 cw_shift) as [Hs | Hs].
    + rewrite analyze_cons in Hrun by done. injection Hrun as <- <-.
      rewrite elem_of_violations_from. split.
      * intros (k & p & d & H1 & H2 & -> & H3). exists p, d.
        split; [apply pair_at_Some; by exists k |].
        by apply violation_b_spec in H3.
      * intros (ld & d & H1 & H2).
        apply pair_at_Some in H1 as (k & -> & H1 & H3).
        exists k, ld, d. repeat split; [done | done |].
        by apply violation_b_spec.
    + destruct data as [| d1 data];
        [| by rewrite analyze_bad_shift in Hrun by lia].
      injection Hrun as <- <-.
      split; [by intros ?%elem_of_nil |].
      intros H. destruct (Hshort [d0]); [simpl; lia | done].
Qed.

Lemma analyze_violation_iff_witness :
  3 ∈ [3] ↔
  ∃ ld d, pair_at [0; 2 + 1; 2 + 4; 2 + 8 + 1] 3 = Some (ld, d)
          ∧ sample_point 1 1 d ld
          ∧ ((0 ≠ 0 ∧ changes d ld 2) ∨ changes d ld (Z.shiftl 7 2)).
Proof.
  apply (analyze_violation_iff 1 1 2 0 7 2 [0; 2 + 1; 2 + 4; 2 + 8 + 1] [] [3]).
  reflexivity.
Defined.

(** C9: the violation list is strictly increasing, so without repetition
    (a position where the valid bits and the codeword bits change together
    at a sample point is listed once), and its entries lie between 1 and
    [len(data) - 1]. *)
Theorem analyze_violations_increasing
    strb_mask strb_slope vld_mask vld_polarity cw_mask cw_shift data cws tvs :
  _analyze_dio_data strb_mask strb_slope vld_mask vld_polarity cw_mask
    cw_shift data = Ret (cws, tvs) →
  StronglySorted Z.lt tvs ∧ NoDup tvs
  ∧ Forall (λ n, 1 ≤ n ≤ len data - 1) tvs.
Proof.
  intros H.
  assert (Hgoal : StronglySorted Z.lt tvs
                  ∧ Forall (λ n, 1 ≤ n ≤ len data - 1) tvs).
  { destruct data as [| d0 data]; [injection H as <- <-; split; constructor |].
    destruct (Z.le_gt_cases 0 cw_shift) as [Hs | Hs].
    - rewrite analyze_cons in H by done. injection H as <- <-.
      destruct (violations_from_sorted strb_mask strb_slope vld_mask
                  vld_polarity cw_mask cw_shift data 1 d0) as [H1 H2].
      split; [done |]. eapply Forall_impl; [exact H2 |].
      unfold len. simpl. lia.
    - destruct data as [| d1 data]; [injection H as <- <-; split; constructor |].
      by rewrite analyze_bad_shift in H by lia. }
  destruct Hgoal as [H1 H2]. repeat split; [done | | done].
  clear -H1. induction tvs as [| x tvs IH]; [constructor |].
  apply StronglySorted_cons in H1 as [H1 H3]. constructor; [| by apply IH].
  intros Hx. rewrite Forall_forall in H1. specialize (H1 _ Hx). lia.
Qed.

Lemma analyze_violations_increasing_witness :
  StronglySorted Z.lt [1; 3] ∧ NoDup [1; 3]
  ∧ Forall (λ n, 1 ≤ n ≤ len [0; 1 + 2 + 4; 2 + 4; 1 + 8] - 1) [1; 3].
Proof.
  apply (analyze_violations_increasing 1 1 2 2 7 2
           [0; 1 + 2 + 4; 2 + 4; 1 + 8] [1]).
  reflexivity.
Defined.

(** C8: a sample that carries the codeword [c] as [(c << shift) | other],
    with [other] clear of the shifted mask, and that is a sample point with
    the valid signal active, adds exactly [c] to the decoded codewords
    (whether or not a violation is recorded there). *)
Theorem analyze_roundtrip
    strb_mask strb_slope vld_mask vld_polarity cw_mask cw_shift
    c other enc m pre ld d post :
  py_lshift c cw_shift = Ret enc →
  py_lshift cw_mask cw_shift = Ret m →
  Z.land c cw_mask = c →
  Z.land other m = 0 →
  d = Z.lor enc other →
  last pre = Some ld →
  sample_point strb_mask strb_slope d ld →
  valid_active vld_mask vld_polarity d →
  ∃ cws_pre tvs_pre cws_post tvs,
    _analyze_dio_data strb_mask strb_slope vld_mask vld_polarity cw_mask
      cw_shift pre = Ret (cws_pre, tvs_pre)
    ∧ _analyze_dio_data strb_mask strb_slope vld_mask vld_polarity cw_mask
        cw_shift (pre ++ d :: post) = Ret (cws_pre ++ c :: cws_post, tvs).
Proof.
  unfold py_lshift. intros Henc Hm Hc Ho -> Hlast Hsp Hva.
  destruct (Z.ltb_spec cw_shift 0) as [| Hs]; [done |].
  injection Henc as <-. injection Hm as <-.
  destruct pre as [| p0 pre]; [done |].
  rewrite <- app_comm_cons, !analyze_cons by done.
  eexists _, _, _, _. split; [done |].
  assert (Hld : default p0 (last pre) = ld).
  { rewrite last_cons in Hlast. destruct (last pre); by simplify_eq. }
  apply strobe_edge_b_spec in Hsp. apply active_b_spec in Hva.
  rewrite decode_from_app, Hld, Hsp, Hva. simpl.
  rewrite decode_encode by done. reflexivity.
Qed.

Lemma analyze_roundtrip_witness :
  ∃ cws_pre tvs_pre cws_post tvs,
    _analyze_dio_data 1 1 2 2 7 2 [2; 2 + 4] = Ret (cws_pre, tvs_pre)
    ∧ _analyze_dio_data 1 1 2 2 7 2 ([2; 2 + 4] ++ 23 :: [22])
      = Ret (cws_pre ++ 5 :: cws_post, tvs).
Proof.
  apply (analyze_roundtrip 1 1 2 2 7 2 5 3 20 28 [2; 2 + 4] 6 23 [22]);
    try reflexivity.
  - right. left. split; [done |]. exists 0. by repeat split.
  - right. by split.
Defined.

(** ** Strobe Symmetry Checker *)

(** C10: the check succeeds on every trace in which, on each strobe line,
    neighbouring runs that begin and end inside the trace have equal
    lengths.  A line that never toggles has a single run, so a dead strobe
    line passes (lemma [never_toggles_equal_runs]), as do the empty trace,
    a single sample and a constant trace. *)
Theorem is_symmetric_equal_runs data bits :
  Forall (λ bit, 0 ≤ bit) bits →
  (∀ bit, bit ∈ bits → equal_runs (run_lengths bit data)) →
  _is_dio_strb_symmetric data bits = Ret true.
Proof.
  intros Hbits Hruns. rewrite is_symmetric_forallb by done. f_equal.
  apply forallb_forall. intros bit Hbit%list_elem_of_In.
  apply strb_loop_equal_runs; [| by apply Hruns].
  rewrite Forall_forall in Hbits. by apply Hbits.
Qed.

Lemma is_symmetric_equal_runs_witness :
  _is_dio_strb_symmetric [5; 5; 5; 5] [0; 1; 30] = Ret true
  ∧ _is_dio_strb_symmetric [] [0; 1; 30] = Ret true
  ∧ _is_dio_strb_symmetric [1; 0; 0; 1; 1; 0; 0; 1] [0] = Ret true.
Proof.
  assert (Hbits : Forall (λ bit, 0 ≤ bit) [0; 1; 30])
    by (repeat constructor; lia).
  split; [| split].
  - apply (is_symmetric_equal_runs _ [0; 1; 30] Hbits).
    intros bit _. apply never_toggles_equal_runs. intros d d' Hd Hd'.
    assert (∀ x, x ∈ [5; 5; 5; 5] → x = 5) as H5
      by (intros x Hx; repeat (apply elem_of_cons in Hx as [-> | Hx]; [done |]);
          by apply elem_of_nil in Hx).
    by rewrite (H5 d), (H5 d').
  - apply (is_symmetric_equal_runs _ [0; 1; 30] Hbits).
    intros bit _. apply never_toggles_equal_runs.
    by intros d d' Hd%elem_of_nil.
  - apply (is_symmetric_equal_runs _ [0]); [repeat constructor; lia |].
    intros bit Hbit. apply list_elem_of_singleton in Hbit as ->.
    change (run_lengths 0 [1; 0; 0; 1; 1; 0; 0; 1])
      with [1; 2; 2; 2; 1]%nat.
    unfold equal_runs.
    intros [| [| [| [| i]]]] x y Hi Hx Hy [z Hz]; simpl in *;
      simplify_eq; first [done | lia].
Defined.

(** ** Delay Search Engine: the validation of the decoded codewords *)

(** C6: the validation returns without raising, and accepts exactly the
    decoded lists whose first codeword occurs in [expected_sequence] and
    whose later codewords follow cyclically from its first occurrence
    there ([index()] takes the first one); the empty list has no codeword
    to check and is accepted.  Against [1; 2; 3], the list
    [2; 3; 1; 2; 3] is accepted and [2; 3; 2] is not. *)
Theorem check_sequence_cyclic expected_sequence verbose codewords h :
  (∃ b out,
     check_loop expected_sequence verbose codewords codewords 0 None h
     = (Ret b, out)
     ∧ (b = true ↔ cyclic_match expected_sequence codewords))
  ∧ (check_loop [1; 2; 3] verbose [2; 3; 1; 2; 3] [2; 3; 1; 2; 3] 0 None h).1
    = Ret true
  ∧ (check_loop [1; 2; 3] verbose [2; 3; 2] [2; 3; 2] 0 None h).1 = Ret false.
Proof.
  split; [| by destruct verbose].
  pose proof (check_loop_spec expected_sequence verbose codewords codewords h)
    as H.
  apply wp_run in H as (r & o & Hrun & _ & b & -> & Hb). by exists b, o.
Qed.

(** ** Delay Configurator *)

(** C5: the code contradicts the claim for a negative delay.  With
    [delay = -1] the warning is printed but the delay is not replaced by 0:
    the data lines are programmed with [3 - (-1) = 4], whereas a delay of 0
    programs them with 3.  The upper bound is applied: [delay = 10] programs
    what [delay = 6] does, after the warning.  No call raises. *)
Theorem set_dio_delay_negative_not_clamped awg strb_mask data_mask h :
  _set_dio_delay awg strb_mask data_mask (-1) h
  = (Ret (), EvPrint "WARNING: Clamping delay to 0" []
             :: delay_writes awg strb_mask data_mask 0 4)
  ∧ _set_dio_delay awg strb_mask data_mask 0 h
    = (Ret (), delay_writes awg strb_mask data_mask 0 3)
  ∧ _set_dio_delay awg strb_mask data_mask 10 h
    = (Ret (), EvPrint "WARNING: Clamping delay to 6" []
               :: delay_writes awg strb_mask data_mask 3 0)
  ∧ _set_dio_delay awg strb_mask data_mask 6 h
    = (Ret (), delay_writes awg strb_mask data_mask 3 0)
  ∧ ∀ delay, (_set_dio_delay awg strb_mask data_mask delay h).1 = Ret ().
Proof.
  assert (Hrun : ∀ delay,
    _set_dio_delay awg strb_mask data_mask delay h
    = (Ret (), clamp_warnings delay
               ++ delay_writes awg strb_mask data_mask
                    (strobe_side delay) (data_side delay))).
  { intros delay.
    pose proof (set_dio_delay_spec awg strb_mask data_mask delay h) as H.
    apply wp_run in H as (r & o & Hrun & -> & ->). by rewrite Hrun. }
  repeat split; try (by rewrite Hrun). intros delay. by rewrite Hrun.
Qed.

(** ** Delay Search Engine: retries *)

(** C7, as stated, does not hold: on an instrument that never shows a
    codeword, one delay setting takes the first capture and six more, not
    at most five more. *)
Lemma delay_retry_five_counterexample :
  ¬ (∀ dev awg expected_sequence verbose vld_mask vld_polarity strb_mask
       strb_slope cw_mask cw_shift valid_delays delay h,
       (length (captures
                  (delay_body dev awg expected_sequence verbose vld_mask
                     vld_polarity strb_mask strb_slope cw_mask cw_shift
                     valid_delays delay h).2) ≤ 1 + 5)%nat).
Proof.
  intros H.
  specialize (H silent_device 0 [1] false 2 1 2 1 1 1 [] 0 []).
  vm_compute in H. lia.
Qed.

(** C7, amended: with a usable shift, one delay setting takes one capture
    and at most six more, each of them because the capture before decoded
    no codeword under a non-zero codeword mask; when the last capture still
    decodes no codeword the delay is left out; the step returns in every
    case, and the sweep goes through all the delay settings. *)
Theorem delay_retry_bound dev awg expected_sequence verbose vld_mask
    vld_polarity strb_mask strb_slope cw_mask cw_shift valid_delays delay h :
  0 ≤ cw_shift →
  (∃ valid_delays' out,
     delay_body dev awg expected_sequence verbose vld_mask vld_polarity
       strb_mask strb_slope cw_mask cw_shift valid_delays delay h
     = (Ret valid_delays', out)
     ∧ delay_step vld_mask vld_polarity strb_mask strb_slope cw_mask cw_shift
         valid_delays delay (captures out) valid_delays')
  ∧ ∀ delays, ∃ added out,
      delay_loop dev awg expected_sequence verbose vld_mask vld_polarity
        strb_mask strb_slope cw_mask cw_shift delays valid_delays h
      = (Ret (valid_delays ++ added), out)
      ∧ sublist added delays
      ∧ (length delays ≤ length (captures out) ≤ 7 * length delays)%nat.
Proof.
  intros Hs. split.
  - pose proof (delay_body_spec dev awg expected_sequence verbose vld_mask
                  vld_polarity strb_mask strb_slope cw_mask cw_shift Hs
                  valid_delays delay h) as H.
    apply wp_run in H as (r & o & Hrun & vd' & -> & Hstep). by exists vd', o.
  - intros delays.
    pose proof (delay_loop_spec dev awg expected_sequence verbose vld_mask
                  vld_polarity strb_mask strb_slope cw_mask cw_shift Hs
                  delays valid_delays h) as H.
    apply wp_run in H as (r & o & Hrun & added & -> & Hsub & Hn).
    by exists added, o.
Qed.

Lemma delay_retry_bound_witness :
  (∃ valid_delays' out,
     delay_body silent_device 0 [1] false 2 1 2 1 1 1 [] 0 []
     = (Ret valid_delays', out)
     ∧ delay_step 2 1 2 1 1 1 [] 0 (captures out) valid_delays')
  ∧ ∀ delays, ∃ added out,
      delay_loop silent_device 0 [1] false 2 1 2 1 1 1 delays [] []
      = (Ret ([] ++ added), out)
      ∧ sublist added delays
      ∧ (length delays ≤ length (captures out) ≤ 7 * length delays)%nat.
Proof. apply (delay_retry_bound silent_device 0 [1] false 2 1 2 1 1 1). lia. Defined.

(** ** Strobe symmetry: the recovery loop *)

(** C4, as stated, does not hold.  On an instrument whose captures
    alternate between asymmetric and symmetric the loop never ends,
    whatever the budget; and five symmetric captures in a row do not end
    it: the sixth does. *)
Lemma ensure_symmetric_strobe_counterexample :
  (∀ fuel, (_ensure_symmetric_strobe flaky_device fuel false []).1 = OutOfFuel)
  ∧ (_ensure_symmetric_strobe silent_device 5 false []).1 = OutOfFuel
  ∧ shots [1] (_ensure_symmetric_strobe silent_device 5 false []).2
    = replicate 5 true
  ∧ (_ensure_symmetric_strobe silent_device 6 false []).1 = Ret true.
Proof.
  split; [| by vm_compute].
  intros fuel. unfold _ensure_symmetric_strobe. rewrite seqZ_0_4.
  cbn [read_strobe_bits].
  apply (wp_bind _ _ [] (λ r _, r = OutOfFuel)). wp_go.
  apply (flaky_loop fuel). right. split; [| lia]. intros p v.
  by rewrite !app_nil_r.
Qed.

(** C4, amended: the loop of [_ensure_symmetric_strobe], run on valid
    strobe bit numbers, recovers (one clock reset with the AWG enable flags
    saved and restored, lemma [resync_spec]) after every asymmetric
    capture; it returns exactly when six captures in a row gave the same
    verdict, with that verdict as its result ([True] after six symmetric
    captures, [False] after six asymmetric ones), and until then it goes
    on: with a budget of [fuel] captures and no six equal verdicts in a
    row among them, it is still running. *)
Theorem strobe_loop_six_in_a_row dev fuel verbose bits h :
  Forall (λ bit, 0 ≤ bit) bits →
  ∃ r out,
    strobe_loop dev fuel verbose bits 0 0 h = (r, out)
    ∧ resyncs out = misses (shots bits out)
    ∧ match r with
      | Ret v =>
          let s := shots bits out in
          (6 ≤ length s)%nat ∧ window s (length s - 6) v
          ∧ ∀ k v', window s k v' → k = (length s - 6)%nat
      | OutOfFuel =>
          length (shots bits out) = fuel ∧ no_window (shots bits out)
      | Raise _ => False
      end.
Proof.
  intros Hbits.
  pose proof (strobe_loop_inv dev verbose bits fuel [] 0 0 h Hbits
                (trailing_nil true) (trailing_nil false)
                ltac:(lia) ltac:(lia)) as H.
  apply wp_run in H as (r & o & Hrun & Hres & Hpost).
  - by exists r, o.
  - intros k v Hw. apply window_length in Hw. simpl in Hw. lia.
Qed.

Lemma strobe_loop_six_in_a_row_witness :
  ∃ r out,
    strobe_loop silent_device 6 false [1] 0 0 [] = (r, out)
    ∧ resyncs out = misses (shots [1] out)
    ∧ match r with
      | Ret v =>
          let s := shots [1] out in
          (6 ≤ length s)%nat ∧ window s (length s - 6) v
          ∧ ∀ k v', window s k v' → k = (length s - 6)%nat
      | OutOfFuel =>
          length (shots [1] out) = 6%nat ∧ no_window (shots [1] out)
      | Raise _ => False
      end.
Proof.
  apply (strobe_loop_six_in_a_row silent_device 6 false [1] []).
  repeat constructor. lia.
Defined.

(** ** Calibration Orchestrator *)

(** C1, as stated, does not hold: when the symmetry check passes and every
    channel has a non-empty Valid-Delay Set, the call need not return
    [True].  On the simulated bus with the delay windows {0, 1} and
    {5, 6} the sets have no common delay and the call raises. *)
Lemma calibrate_always_true_counterexample :
  ¬ (∀ dev fuel awgs_and_sequences verbose h o1 sets o2,
       _ensure_symmetric_strobe dev fuel verbose (h_check verbose h)
       = (Ret true, o1) →
       search_all dev verbose awgs_and_sequences (h_search verbose h o1)
       = (Ret sets, o2) →
       Forall (λ s, s ≠ ∅) sets →
       (calibrate_dio_protocol dev fuel awgs_and_sequences verbose h).1
       = Ret true).
Proof.
  intros H.
  set (dev := sim_device windows_apart).
  set (o1 := (_ensure_symmetric_strobe dev 6 false (h_check false [])).2).
  set (o2 := (search_all dev false two_channels (h_search false [] o1)).2).
  specialize (H dev 6%nat two_channels false [] o1 [{[0; 1]}; {[5; 6]}] o2).
  assert (Hraise : (calibrate_dio_protocol dev 6 two_channels false []).1
                   = Raise ValueError) by (vm_compute; reflexivity).
  rewrite H in Hraise; [done | | |].
  - apply run_eta. vm_compute. reflexivity.
  - apply run_eta. vm_compute. reflexivity.
  - exact windows_apart_nonempty.
Qed.

(** C1, amended: the call returns [False] when the symmetry check with
    recovery fails, and when the delay search of a channel, reached after
    channels with non-empty sets, yields the empty set.  When every
    channel has a non-empty set and the sets have a delay in common (so
    there is at least one channel), the largest common delay [d] is
    applied to every channel, in order, by the second loop, and the call
    returns [True] if that loop returns, which it does when the registers
    read non-negative values.  The sets {1,2,3,4} and {2,3,4,5} have the
    intersection {2,3,4}, of maximum 4. *)
Theorem calibrate_follows_spec dev fuel awgs_and_sequences verbose h b applied :
  calibrated dev fuel awgs_and_sequences verbose h b applied →
  match applied with
  | None => (calibrate_dio_protocol dev fuel awgs_and_sequences verbose h).1
            = Ret b
  | Some d =>
      ∃ o_pre r o_apply,
        configure_all dev verbose awgs_and_sequences d (h ++ o_pre)
        = (r, o_apply)
        ∧ calibrate_dio_protocol dev fuel awgs_and_sequences verbose h
          = (match r with
             | Ret _ => Ret b
             | Raise e => Raise e
             | OutOfFuel => OutOfFuel
             end, o_pre ++ o_apply)
        ∧ (nonneg_device dev → r = Ret ())
  end
  ∧ py_set_intersection [{[1; 2; 3; 4]}; {[2; 3; 4; 5]}] = Ret {[2; 3; 4]}
  ∧ py_max {[2; 3; 4]} = Ret 4.
Proof.
  intros Hcal. split; [by apply calibrate_run |].
  split; vm_compute; reflexivity.
Qed.

Lemma calibrate_follows_spec_witness :
  (∃ o_pre r o_apply,
     configure_all (sim_device windows_overlap) false two_channels 4
       ([] ++ o_pre) = (r, o_apply)
     ∧ calibrate_dio_protocol (sim_device windows_overlap) 6 two_channels
         false []
       = (match r with
          | Ret _ => Ret true
          | Raise e => Raise e
          | OutOfFuel => OutOfFuel
          end, o_pre ++ o_apply)
     ∧ (nonneg_device (sim_device windows_overlap) → r = Ret ()))
  ∧ py_set_intersection [{[1; 2; 3; 4]}; {[2; 3; 4; 5]}] = Ret {[2; 3; 4]}
  ∧ py_max {[2; 3; 4]} = Ret 4.
Proof.
  apply (calibrate_follows_spec (sim_device windows_overlap) 6 two_channels
           false [] true (Some 4)).
  eapply (calibrated_common _ _ _ _ _ _ [{[1; 2; 3; 4]}; {[2; 3; 4; 5]}]).
  - apply run_eta. vm_compute. reflexivity.
  - apply run_eta. vm_compute. reflexivity.
  - repeat constructor; set_solver.
  - done.
  - intros s Hs.
    repeat (apply elem_of_cons in Hs as [-> | Hs]; [set_solver |]).
    by apply elem_of_nil in Hs.
  - intros x Hx. assert (x ∈ ({[1; 2; 3; 4]} : gset Z)) as Hx1
      by (apply Hx; by left).
    set_unfold. lia.
Defined.

(** C2: the code contradicts the claim.  On the simulated bus with the
    delay windows {0, 1} and {5, 6} the symmetry check passes and both
    channels have a non-empty Valid-Delay Set, but [calibrate_dio_protocol]
    ends in [ValueError] ([max] of the empty intersection) instead of
    returning a boolean; with no channel at all it ends in [TypeError].
    Lemma [calibrate_empty_intersection] gives the general case. *)
Theorem calibrate_empty_intersection_raises :
  (_ensure_symmetric_strobe (sim_device windows_apart) 6 false []).1 = Ret true
  ∧ (search_all (sim_device windows_apart) false two_channels
       (h_search false []
          (_ensure_symmetric_strobe (sim_device windows_apart) 6 false []).2)).1
    = Ret [{[0; 1]}; {[5; 6]}]
  ∧ (calibrate_dio_protocol (sim_device windows_apart) 6 two_channels false []).1
    = Raise ValueError
  ∧ (calibrate_dio_protocol (sim_device windows_apart) 6 [] false []).1
    = Raise TypeError.
Proof. repeat split; vm_compute; reflexivity. Qed.

(** * Further properties of the calibration helpers *)

(** ** [_get_edges] *)

(** X1: the rising and the falling edges are disjoint, and together they
    are the bits of the mask that changed. *)
Theorem get_edges_partition value last_value mask :
  Z.land (_get_edges value last_value mask).1
         (_get_edges value last_value mask).2 = 0
  ∧ Z.lor (_get_edges value last_value mask).1
          (_get_edges value last_value mask).2
    = Z.land (Z.lxor value last_value) mask.
Proof.
  split; [apply get_edges_disjoint |].
  unfold _get_edges. simpl. apply Z.bits_inj'. intros i Hi.
  rewrite Z.lor_spec, !Z.land_spec, Z.lnot_spec, Z.lxor_spec by done.
  by destruct (Z.testbit value i), (Z.testbit last_value i),
    (Z.testbit mask i).
Qed.

(** X2: exchanging the two samples exchanges the rising and the falling
    edges, and a sample compared with itself has no edge. *)
Theorem get_edges_reverse value last_value mask :
  _get_edges last_value value mask
  = ((_get_edges value last_value mask).2, (_get_edges value last_value mask).1)
  ∧ _get_edges value value mask = (0, 0).
Proof.
  unfold _get_edges. simpl. split; f_equal; apply Z.bits_inj'; intros i Hi;
    rewrite ?Z.land_spec, ?Z.lnot_spec, ?Z.lxor_spec, ?Z.bits_0 by done;
    by destruct (Z.testbit value i), (Z.testbit last_value i),
      (Z.testbit mask i).
Qed.

(** ** [_analyze_dio_data] *)

(** X3: the analysis raises exactly when the codeword shift is negative
    and the trace has at least two samples, and then it raises
    [ValueError]; a trace of fewer than two samples gives two empty lists
    whatever the protocol. *)
Theorem analyze_raises_iff
    strb_mask strb_slope vld_mask vld_polarity cw_mask cw_shift data :
  match _analyze_dio_data strb_mask strb_slope vld_mask vld_polarity cw_mask
          cw_shift data with
  | Ret (cws, tvs) =>
      (0 ≤ cw_shift ∨ (length data ≤ 1)%nat)
      ∧ ((length data ≤ 1)%nat → cws = [] ∧ tvs = [])
  | Raise e => e = ValueError ∧ cw_shift < 0 ∧ (2 ≤ length data)%nat
  | OutOfFuel => False
  end.
Proof.
  destruct (Z.le_gt_cases 0 cw_shift) as [Hs | Hs].
  - destruct data as [| d0 data]; [by split; [right; simpl; lia |] |].
    rewrite analyze_cons by done. split; [by left |].
    intros Hl. destruct data; [done | simpl in Hl; lia].
  - destruct data as [| d0 [| d1 data]].
    + by split; [right; simpl; lia |].
    + by split; [right; simpl; lia |].
    + rewrite analyze_bad_shift by done. repeat split; [done |]. simpl. lia.
Qed.

Lemma Z_land_le x m : 0 ≤ m → Z.land x m ≤ m.
Proof.
  intros Hm.
  assert (Hsum : Z.land x m + Z.land (Z.lnot x) m = m).
  { rewrite Z.add_nocarry_lor.
    - apply Z.bits_inj'. intros i Hi.
      rewrite Z.lor_spec, !Z.land_spec, Z.lnot_spec by done.
      by destruct (Z.testbit x i), (Z.testbit m i).
    - apply Z.bits_inj'. intros i Hi.
      rewrite !Z.land_spec, Z.lnot_spec, Z.bits_0 by done.
      by destruct (Z.testbit x i), (Z.testbit m i). }
  assert (0 ≤ Z.land (Z.lnot x) m) by (apply Z.land_nonneg; by right).
  lia.
Qed.

Section analyze_more.
Context (strb_mask strb_slope vld_mask vld_polarity cw_mask cw_shift : Z).

Local Abbreviation analyze :=
  (_analyze_dio_data strb_mask strb_slope vld_mask vld_polarity cw_mask cw_shift).
Local Abbreviation decode :=
  (decode_from strb_mask strb_slope vld_mask vld_polarity cw_mask cw_shift).
Local Abbreviation viols :=
  (violations_from strb_mask strb_slope vld_mask vld_polarity cw_mask cw_shift).

Lemma decode_from_masked data : ∀ ld,
  Forall (λ c, Z.land c cw_mask = c) (decode ld data)
  ∧ (length (decode ld data) ≤ length data)%nat.
Proof.
  induction data as [| d data IH]; intros ld; simpl; [by split |].
  destruct (IH d) as [IH1 IH2].
  destruct (strobe_edge_b strb_mask strb_slope d ld
            && active_b vld_mask vld_polarity d); simpl.
  - split; [| lia]. constructor; [| done].
    by rewrite <- Z.land_assoc, Z.land_diag.
  - split; [done | lia].
Qed.

Lemma violations_from_length data : ∀ n ld,
  (length (viols n ld data) ≤ length data)%nat.
Proof.
  induction data as [| d data IH]; intros n ld; simpl; [done |].
  specialize (IH (n + 1) d). rewrite length_app.
  destruct (violation_b _ _ _ _ _ _ d ld); simpl; lia.
Qed.

Lemma violations_from_app pre : ∀ n ld d post,
  viols n ld (pre ++ d :: post)
  = viols n ld pre ++ viols (n + len pre) (default ld (last pre)) (d :: post).
Proof.
  unfold len.
  induction pre as [| p pre IH]; intros n ld d post.
  - simpl. by rewrite Z.add_0_r.
  - cbn [app violations_from]. rewrite IH, <- app_assoc. do 2 f_equal.
    rewrite last_cons.
    replace (n + 1 + Z.of_nat (length pre))
      with (n + Z.of_nat (length (p :: pre))) by (simpl; lia).
    by destruct (last pre).
Qed.

Lemma decode_from_polarity_none data : ∀ ld,
  Z.land vld_polarity 3 = 0 → decode ld data = [].
Proof.
  intros ld Hpol.
  assert (Hbit : ∀ i, 0 ≤ i → Z.testbit 3 i = true →
                      Z.testbit vld_polarity i = false).
  { intros i Hi H3.
    assert (H : Z.testbit (Z.land vld_polarity 3) i = false)
      by (rewrite Hpol; apply Z.bits_0).
    by rewrite Z.land_spec, H3, andb_true_r in H. }
  assert (H0 : Z.testbit vld_polarity 0 = false) by by apply Hbit.
  assert (H1 : Z.testbit vld_polarity 1 = false) by by apply Hbit.
  assert (Hact : ∀ d, active_b vld_mask vld_polarity d = false).
  { intros d. apply not_true_is_false. rewrite active_b_spec.
    unfold valid_active. rewrite H0, H1. by intros [[? _] | [? _]]. }
  revert ld. induction data as [| d data IH]; intros ld; simpl; [done |].
  by rewrite Hact, andb_false_r, IH.
Qed.

Lemma decode_from_every_sample data : ∀ ld,
  strb_slope = 0 → Z.testbit vld_polarity 0 = true →
  Z.testbit vld_polarity 1 = true →
  decode ld data = (λ d, Z.land (Z.shiftr d cw_shift) cw_mask) <$> data.
Proof.
  intros ld Hslope H0 H1.
  assert (Hact : ∀ d, active_b vld_mask vld_polarity d = true).
  { intros d. apply active_b_spec. unfold valid_active.
    destruct (decide (Z.land d vld_mask = 0)); [by left | by right]. }
  assert (Hstrb : ∀ d ld', strobe_edge_b strb_mask strb_slope d ld' = true).
  { intros d ld'. unfold strobe_edge_b. by rewrite Hslope. }
  revert ld. induction data as [| d data IH]; intros ld; simpl; [done |].
  by rewrite Hact, Hstrb, IH.
Qed.

Lemma get_edges_same d mask : _get_edges d d mask = (0, 0).
Proof.
  unfold _get_edges. by rewrite Z.lxor_nilpotent, !Z.land_0_l.
Qed.

Lemma violation_b_constant d : violation_b strb_mask strb_slope vld_mask
  vld_polarity cw_mask cw_shift d d = false.
Proof.
  unfold violation_b, valid_edge_b, data_edge_b.
  rewrite !get_edges_same.
  simpl. by rewrite !andb_false_r.
Qed.

Lemma strobe_edge_b_constant d :
  strb_slope ≠ 0 → strobe_edge_b strb_mask strb_slope d d = false.
Proof.
  intros Hs. unfold strobe_edge_b.
  rewrite !get_edges_same.
  destruct (Z.eqb_spec strb_slope 0); [done |].
  by destruct (strb_slope =? 1), (strb_slope =? 2).
Qed.
End analyze_more.

(** X4: every decoded codeword lies within the codeword mask (between 0
    and the mask when the mask is not negative), and neither output is
    longer than the number of samples after the first. *)
Theorem analyze_codewords_masked
    strb_mask strb_slope vld_mask vld_polarity cw_mask cw_shift data cws tvs :
  _analyze_dio_data strb_mask strb_slope vld_mask vld_polarity cw_mask
    cw_shift data = Ret (cws, tvs) →
  Forall (λ c, Z.land c cw_mask = c ∧ (0 ≤ cw_mask → 0 ≤ c ≤ cw_mask)) cws
  ∧ (length cws ≤ length data - 1)%nat
  ∧ (length tvs ≤ length data - 1)%nat.
Proof.
  intros Hrun.
  destruct data as [| d0 data]; [by injection Hrun as <- <- |].
  destruct (Z.le_gt_cases 0 cw_shift) as [Hs | Hs].
  - rewrite analyze_cons in Hrun by done. injection Hrun as <- <-.
    destruct (decode_from_masked strb_mask strb_slope vld_mask vld_polarity
                cw_mask cw_shift data d0) as [H1 H2].
    pose proof (violations_from_length strb_mask strb_slope vld_mask
                  vld_polarity cw_mask cw_shift data 1 d0) as H3.
    split; [| simpl; lia].
    eapply Forall_impl; [exact H1 |]. intros c Hc. split; [done |].
    intros Hm. rewrite <- Hc. split; [apply Z.land_nonneg; by right |].
    by apply Z_land_le.
  - destruct data as [| d1 data];
      [by injection Hrun as <- <- | by rewrite analyze_bad_shift in Hrun].
Qed.

Lemma analyze_codewords_masked_witness :
  Forall (λ c, Z.land c 7 = c ∧ (0 ≤ 7 → 0 ≤ c ≤ 7)) [1; 2]
  ∧ (length [1; 2] ≤ length [0; 2+4; 2+4+1; 2+8; 2+8+1; 8; 1] - 1)%nat
  ∧ (length [6] ≤ length [0; 2+4; 2+4+1; 2+8; 2+8+1; 8; 1] - 1)%nat.
Proof.
  apply (analyze_codewords_masked 1 1 2 2 7 2
           [0; 2+4; 2+4+1; 2+8; 2+8+1; 8; 1] [1; 2] [6]).
  reflexivity.
Defined.

(** X5: with neither polarity bit set no codeword is ever decoded; with
    strobe slope 0 and both polarity bits set every sample after the first
    is decoded, in order. *)
Theorem analyze_polarity_extremes
    strb_mask strb_slope vld_mask vld_polarity cw_mask cw_shift data cws tvs :
  _analyze_dio_data strb_mask strb_slope vld_mask vld_polarity cw_mask
    cw_shift data = Ret (cws, tvs) →
  (Z.land vld_polarity 3 = 0 → cws = [])
  ∧ (strb_slope = 0 → Z.testbit vld_polarity 0 = true →
     Z.testbit vld_polarity 1 = true →
     cws = (λ d, Z.land (Z.shiftr d cw_shift) cw_mask) <$> tail data).
Proof.
  intros Hrun.
  destruct data as [| d0 data]; [by injection Hrun as <- <- |].
  destruct (Z.le_gt_cases 0 cw_shift) as [Hs | Hs].
  - rewrite analyze_cons in Hrun by done. injection Hrun as <- <-. split.
    + apply decode_from_polarity_none.
    + apply decode_from_every_sample.
  - destruct data as [| d1 data];
      [by injection Hrun as <- <- | by rewrite analyze_bad_shift in Hrun].
Qed.

Lemma analyze_polarity_extremes_witness :
  (Z.land 3 3 = 0 → [1; 2; 0] = [])
  ∧ (0 = 0 → Z.testbit 3 0 = true → Z.testbit 3 1 = true →
     [1; 2; 0] = (λ d, Z.land (Z.shiftr d 2) 7) <$> tail [0; 4; 8 + 1; 2]).
Proof.
  apply (analyze_polarity_extremes 1 0 2 3 7 2 [0; 4; 8 + 1; 2] [1; 2; 0] [1; 2; 3]).
  reflexivity.
Defined.

(** X6: the analysis is incremental: when the analysis of a longer trace
    returns, the analysis of each of its prefixes returns as well, and
    both outputs of the longer trace extend those of the prefix. *)
Theorem analyze_prefix
    strb_mask strb_slope vld_mask vld_polarity cw_mask cw_shift data more
    cws' tvs' :
  _analyze_dio_data strb_mask strb_slope vld_mask vld_polarity cw_mask
    cw_shift (data ++ more) = Ret (cws', tvs') →
  ∃ cws tvs cws2 tvs2,
    _analyze_dio_data strb_mask strb_slope vld_mask vld_polarity cw_mask
      cw_shift data = Ret (cws, tvs)
    ∧ cws' = cws ++ cws2 ∧ tvs' = tvs ++ tvs2.
Proof.
  intros Hrun.
  destruct data as [| d0 data]; [by exists [], [], cws', tvs' |].
  destruct (Z.le_gt_cases 0 cw_shift) as [Hs | Hs].
  - rewrite <- app_comm_cons, analyze_cons in Hrun by done.
    injection Hrun as <- <-. rewrite analyze_cons by done.
    destruct more as [| m more].
    + rewrite app_nil_r. eexists _, _, [], []. by rewrite !app_nil_r.
    + rewrite decode_from_app, violations_from_app. by eexists _, _, _, _.
  - destruct data as [| d1 data].
    + destruct more as [| m more];
        [| cbn [app] in Hrun; by rewrite analyze_bad_shift in Hrun].
      injection Hrun as <- <-. by exists [], [], [], [].
    + cbn [app] in Hrun. by rewrite analyze_bad_shift in Hrun.
Qed.

Lemma analyze_prefix_witness :
  ∃ cws tvs cws2 tvs2,
    _analyze_dio_data 1 1 2 2 7 2 [0; 2+4; 2+4+1] = Ret (cws, tvs)
    ∧ [1; 2] = cws ++ cws2 ∧ [6] = tvs ++ tvs2.
Proof.
  apply (analyze_prefix 1 1 2 2 7 2 [0; 2+4; 2+4+1] [2+8; 2+8+1; 8; 1]
           [1; 2] [6]).
  reflexivity.
Defined.

(** X7: a trace that never changes has no timing violation, and under
    every strobe policy other than 0 it yields no codeword. *)
Theorem analyze_constant_trace
    strb_mask strb_slope vld_mask vld_polarity cw_mask cw_shift d n :
  0 ≤ cw_shift →
  ∃ cws,
    _analyze_dio_data strb_mask strb_slope vld_mask vld_polarity cw_mask
      cw_shift (replicate n d) = Ret (cws, [])
    ∧ (strb_slope ≠ 0 → cws = []).
Proof.
  intros Hs. destruct n as [| n]; [by exists [] |].
  cbn [replicate]. rewrite analyze_cons by done.
  assert (Hv : ∀ k, violations_from strb_mask strb_slope vld_mask vld_polarity
                      cw_mask cw_shift k d (replicate n d) = []).
  { induction n as [| n IH]; intros k; simpl; [done |].
    by rewrite violation_b_constant, IH. }
  rewrite Hv. eexists. split; [done |]. intros Hslope.
  clear Hv. induction n as [| n IH]; simpl; [done |].
  by rewrite strobe_edge_b_constant, IH.
Qed.

Lemma analyze_constant_trace_witness :
  ∃ cws,
    _analyze_dio_data 1 3 2 2 7 0 (replicate 5 3) = Ret (cws, [])
    ∧ (3 ≠ 0 → cws = []).
Proof. apply (analyze_constant_trace 1 3 2 2 7 0 3 5). lia. Defined.

(** ** More on the Strobe Symmetry Checker *)

(** Some run strictly inside the window is at least two samples long and
    differs in length from the run after it, which also ends inside the
    window. *)
Definition unequal_runs (lens : list nat) : Prop :=
  ∃ i x y, (1 ≤ i)%nat ∧ lens !! i = Some x ∧ lens !! S i = Some y
           ∧ is_Some (lens !! S (S i)) ∧ (2 ≤ x)%nat ∧ x ≠ y.

Lemma chain_cons prev c c' rest :
  chain prev (c :: c' :: rest)
  = if (0 <? prev) && negb (prev =? c) then false else chain c (c' :: rest).
Proof. done. Qed.

Lemma chain_false prev counts :
  chain prev counts = false ↔
  (0 < prev ∧ ∃ c, counts !! 0%nat = Some c ∧ is_Some (counts !! 1%nat) ∧ prev ≠ c)
  ∨ (∃ i x y, counts !! i = Some x ∧ counts !! S i = Some y
              ∧ is_Some (counts !! S (S i)) ∧ 0 < x ∧ x ≠ y).
Proof.
  revert prev. induction counts as [| c counts IH]; intros prev.
  - simpl. split; [done |]. intros [(_ & c & H & _) | (i & x & y & H & _)]; done.
  - destruct counts as [| c' counts].
    + simpl. split; [done |].
      intros [(_ & c0 & _ & [? H] & _) | (i & x & y & _ & H & _)]; done.
    + rewrite chain_cons. destruct ((0 <? prev) && negb (prev =? c)) eqn:Hcond.
      * split; [| done]. intros _. left.
        apply andb_true_iff in Hcond as [H1%Z.ltb_lt H2%negb_true_iff%Z.eqb_neq].
        split; [done |]. exists c. split; [done |]. split; [by eexists | done].
      * rewrite IH. split.
        -- intros [(H0 & c0 & H1 & H2 & H3) | (i & x & y & H1 & H2 & H3 & H4)].
           ++ right. exists 0%nat, c, c0. simpl in *. by simplify_eq.
           ++ right. by exists (S i), x, y.
        -- intros [(H0 & c0 & H1 & H2 & H3) | (i & x & y & H1 & H2 & H3 & H4)].
           ++ simpl in H1. simplify_eq.
              apply andb_false_iff in Hcond as [H%Z.ltb_ge | H%negb_false_iff%Z.eqb_eq];
                [lia | done].
           ++ destruct i as [| i].
              ** left. simpl in *. simplify_eq. split; [tauto |].
                 exists y. split; [done |]. split; [done | tauto].
              ** right. by exists i, x, y.
Qed.

Lemma strb_loop_unequal_runs bit data :
  0 ≤ bit →
  strb_loop (Z.shiftl 1 bit) strb_init data = false
  ↔ unequal_runs (run_lengths bit data).
Proof.
  intros Hb. rewrite strb_loop_run_lengths by done. rewrite chain_false.
  unfold unequal_runs.
  destruct (run_lengths bit data) as [| l0 lens].
  { simpl. split.
    - intros [(? & _) | (i & x & y & H & _)]; [lia | done].
    - intros (i & x & y & _ & H & _). done. }
  cbn [tail]. split.
  - intros [(? & _) | (i & x & y & H1 & H2 & H3 & H4 & H5)]; [lia |].
    rewrite !list_lookup_fmap in *.
    destruct (lens !! i) as [x' |] eqn:Hx; [| done].
    destruct (lens !! S i) as [y' |] eqn:Hy; [| done].
    simpl in *. simplify_eq. apply fmap_is_Some in H3.
    exists (S i), x', y'. simpl. repeat split; try done; lia.
  - intros (i & x & y & H0 & H1 & H2 & H3 & H4 & H5). right.
    destruct i as [| i]; [lia |]. simpl in *.
    exists i, (Z.of_nat x - 1), (Z.of_nat y - 1).
    rewrite !list_lookup_fmap, H1, H2. simpl.
    repeat split; try done; [by apply fmap_is_Some | lia | lia].
Qed.

Lemma forallb_false_iff {A} (f : A → bool) l :
  forallb f l = false ↔ ∃ x, x ∈ l ∧ f x = false.
Proof.
  induction l as [| a l IH]; simpl.
  - split; [done |]. intros (x & Hx & _). by apply elem_of_nil in Hx.
  - rewrite andb_false_iff, IH. split.
    + intros [H | (x & Hx & H)]; [exists a | exists x]; split;
        try done; [by left | by right].
    + intros (x & [-> | Hx]%elem_of_cons & H); [by left |]. right. by exists x.
Qed.

Lemma strb_loop_app mask : ∀ data st more,
  strb_loop mask st data = false → strb_loop mask st (data ++ more) = false.
Proof.
  induction data as [| d data IH]; intros st more H; [done |].
  simpl in *. destruct (strb_step mask st d); [by apply IH | done].
Qed.

(** X8: on non-negative strobe bits the check returns, and it returns
    [False] exactly when, on one of the strobe lines, some run that begins
    and ends inside the trace is at least two samples long and is followed
    by a run of another length that also ends inside the trace.  A run of a
    single sample is never compared with the one after it. *)
Theorem is_symmetric_false_iff data bits :
  Forall (λ bit, 0 ≤ bit) bits →
  ∃ ok, _is_dio_strb_symmetric data bits = Ret ok
        ∧ (ok = false ↔ ∃ bit, bit ∈ bits ∧ unequal_runs (run_lengths bit data)).
Proof.
  intros Hbits. rewrite is_symmetric_forallb by done. eexists. split; [done |].
  rewrite forallb_false_iff. rewrite Forall_forall in Hbits.
  split; intros (bit & Hbit & H); exists bit; (split; [done |]);
    by apply (strb_loop_unequal_runs bit data (Hbits bit Hbit)).
Qed.

Lemma is_symmetric_false_iff_witness :
  ∃ ok, _is_dio_strb_symmetric [0; 1; 0; 0; 0; 1; 0] [0; 3] = Ret ok
        ∧ (ok = false ↔
           ∃ bit, bit ∈ [0; 3]
                  ∧ unequal_runs (run_lengths bit [0; 1; 0; 0; 0; 1; 0])).
Proof.
  apply (is_symmetric_false_iff [0; 1; 0; 0; 0; 1; 0] [0; 3]).
  repeat constructor; lia.
Defined.

(** X9: on non-negative strobe bits the verdict is the conjunction of the
    verdicts of the single bits: it does not depend on the order of the
    bits or on a bit being listed twice, and a list of bits passes exactly
    when each of its two halves does. *)
Theorem is_symmetric_bits_as_set data bits bits' :
  Forall (λ bit, 0 ≤ bit) bits →
  Forall (λ bit, 0 ≤ bit) bits' →
  ((∀ bit, bit ∈ bits ↔ bit ∈ bits') →
   _is_dio_strb_symmetric data bits = _is_dio_strb_symmetric data bits')
  ∧ (_is_dio_strb_symmetric data (bits ++ bits') = Ret true
     ↔ _is_dio_strb_symmetric data bits = Ret true
       ∧ _is_dio_strb_symmetric data bits' = Ret true).
Proof.
  intros H1 H2. split.
  - intros Hset. rewrite !is_symmetric_forallb by done. f_equal.
    apply eq_true_iff_eq. rewrite !forallb_forall.
    split; intros H bit Hbit%list_elem_of_In; apply H, list_elem_of_In;
      by apply Hset.
  - rewrite !is_symmetric_forallb by (by try apply Forall_app). rewrite forallb_app.
    split.
    + intros [= H]. apply andb_true_iff in H as [-> ->]. done.
    + intros [[= ->] [= ->]]. done.
Qed.

Lemma is_symmetric_bits_as_set_witness :
  ((∀ bit, bit ∈ [0; 1; 0] ↔ bit ∈ [1; 0]) →
   _is_dio_strb_symmetric [1; 2; 2; 1; 1; 2] [0; 1; 0]
   = _is_dio_strb_symmetric [1; 2; 2; 1; 1; 2] [1; 0])
  ∧ (_is_dio_strb_symmetric [1; 2; 2; 1; 1; 2] ([0; 1; 0] ++ [1; 0]) = Ret true
     ↔ _is_dio_strb_symmetric [1; 2; 2; 1; 1; 2] [0; 1; 0] = Ret true
       ∧ _is_dio_strb_symmetric [1; 2; 2; 1; 1; 2] [1; 0] = Ret true).
Proof.
  apply (is_symmetric_bits_as_set [1; 2; 2; 1; 1; 2] [0; 1; 0] [1; 0]);
    repeat constructor; lia.
Defined.

(** X10: a negative bit number makes [1 << bit] raise [ValueError], but
    only when the loop over the bits reaches it: a failing bit before it
    ends the loop with [False], and nothing after the negative bit is
    looked at. *)
Theorem is_symmetric_negative_bit data pre bit post :
  Forall (λ b, 0 ≤ b) pre → bit < 0 →
  _is_dio_strb_symmetric data (pre ++ bit :: post)
  = match _is_dio_strb_symmetric data pre with
    | Ret true => Raise ValueError
    | r => r
    end.
Proof.
  intros Hpre Hbit. induction Hpre as [| b pre Hb _ IH].
  - simpl. unfold py_lshift. by destruct (Z.ltb_spec bit 0); [| lia].
  - simpl. unfold py_lshift. destruct (Z.ltb_spec b 0); [lia |]. simpl.
    by destruct (strb_loop (Z.shiftl 1 b) strb_init data).
Qed.

Lemma is_symmetric_negative_bit_witness :
  _is_dio_strb_symmetric [1; 0; 0; 1; 1; 0] ([0] ++ (-1) :: [5])
  = match _is_dio_strb_symmetric [1; 0; 0; 1; 1; 0] [0] with
    | Ret true => Raise ValueError
    | r => r
    end.
Proof.
  apply (is_symmetric_negative_bit [1; 0; 0; 1; 1; 0] [0] (-1) [5]);
    [repeat constructor; lia | lia].
Defined.

(** X11: a trace that fails the check keeps failing however it is
    continued: the check stops at the first unequal pair of runs. *)
Theorem is_symmetric_false_extends data more bits :
  _is_dio_strb_symmetric data bits = Ret false →
  _is_dio_strb_symmetric (data ++ more) bits = Ret false.
Proof.
  induction bits as [| bit bits IH]; [done |].
  simpl. destruct (py_lshift 1 bit) as [mask | |]; simpl; [| done | done].
  destruct (strb_loop mask strb_init data) eqn:Hl.
  - intros H. 
    destruct (strb_loop mask strb_init (data ++ more)); [by apply IH | done].
  - intros _. by rewrite strb_loop_app.
Qed.

Lemma is_symmetric_false_extends_witness :
  _is_dio_strb_symmetric ([1; 0; 0; 0; 1; 1; 0] ++ [0; 0; 1]) [0] = Ret false.
Proof.
  by apply (is_symmetric_false_extends [1; 0; 0; 0; 1; 1; 0] [0; 0; 1] [0]).
Defined.

(** ** More on the delay configurator and the delay search *)

(** X12: for a delay inside the range 0 to 6 nothing is clamped and no
    warning is printed: the run consists of the 64 register writes alone,
    the data lines are delayed against the strobe line by [3 - delay], and
    one of the two delays is 0. *)
Theorem set_dio_delay_in_range awg strb_mask data_mask delay h :
  0 ≤ delay ≤ 6 →
  ∃ strb_delay data_delay,
    _set_dio_delay awg strb_mask data_mask delay h
    = (Ret (), delay_writes awg strb_mask data_mask strb_delay data_delay)
    ∧ data_delay - strb_delay = 3 - delay
    ∧ Z.min strb_delay data_delay = 0.
Proof.
  intros Hd.
  pose proof (set_dio_delay_spec awg strb_mask data_mask delay h) as H.
  apply wp_run in H as (r & o & Hrun & -> & ->).
  exists (strobe_side delay), (data_side delay). split.
  - rewrite Hrun. unfold clamp_warnings.
    destruct (Z.ltb_spec delay 0); [lia |].
    by destruct (Z.ltb_spec 6 delay); [lia |].
  - unfold strobe_side, data_side. rewrite Z.min_l by lia.
    destruct (Z.ltb_spec 3 delay); lia.
Qed.

Lemma set_dio_delay_in_range_witness :
  ∃ strb_delay data_delay,
    _set_dio_delay 1 (2 ^ 30) (2 ^ 31 + 7) 5 []
    = (Ret (), delay_writes 1 (2 ^ 30) (2 ^ 31 + 7) strb_delay data_delay)
    ∧ data_delay - strb_delay = 3 - 5
    ∧ Z.min strb_delay data_delay = 0.
Proof. apply (set_dio_delay_in_range 1 (2 ^ 30) (2 ^ 31 + 7) 5 []). lia. Defined.

(** Events that neither write to the instrument nor capture a trace. *)
Definition passive (e : event) : bool :=
  match e with
  | EvGeti _ _ | EvPrint _ _ => true
  | _ => false
  end.

Lemma py_lshift_cases a b :
  (b < 0 ∧ py_lshift a b = Raise ValueError)
  ∨ (0 ≤ b ∧ py_lshift a b = Ret (Z.shiftl a b)).
Proof. unfold py_lshift. destruct (Z.ltb_spec b 0); [by left | by right]. Qed.

Lemma delay_loop_bad_shift dev awg expected_sequence verbose vld_mask
    vld_polarity strb_mask strb_slope cw_mask cw_shift delay delays
    valid_delays h :
  cw_shift < 0 →
  wp (delay_loop dev awg expected_sequence verbose vld_mask vld_polarity
        strb_mask strb_slope cw_mask cw_shift (delay :: delays) valid_delays) h
     (λ r o, r = Raise ValueError ∧ forallb passive o = true).
Proof.
  intros Hs. cbn [delay_loop]. unfold delay_body. wp_go.
  destruct (py_lshift_cases cw_mask cw_shift) as [[_ ->] | [? _]]; [| lia].
  wp_go. by destruct verbose.
Qed.

Ltac find_event :=
  cbn [app];
  repeat first [ apply list_elem_of_here | apply list_elem_of_further ].

Lemma find_valid_delays_spec dev awg expected_sequence verbose h :
  wp (_find_valid_delays dev awg expected_sequence verbose) h
     (λ r o, match r with
             | Ret s => (∀ d, d ∈ s → 0 ≤ d ≤ 6)
                        ∧ (7 ≤ length (captures o) ≤ 49)%nat
             | Raise e => e = ValueError ∧ forallb passive o = true
                          ∧ ∃ path v, EvGeti path v ∈ o ∧ v < 0
             | OutOfFuel => False
             end).
Proof.
  unfold _find_valid_delays. wp_go.
  match goal with
  | |- context [py_lshift 1 ?i] =>
      destruct (py_lshift_cases 1 i) as [[Hn ->] | [Hp ->]]
  end.
  { wp_go. split; [done |]. split; [by destruct verbose |].
    destruct verbose;
      (match type of Hn with
       | geti_reply ?d ?hh ?p < 0 => exists p, (geti_reply d hh p)
       end); (split; [find_event | exact Hn]). }
  wp_go.
  match goal with
  | |- context [py_lshift 1 ?i] =>
      destruct (py_lshift_cases 1 i) as [[Hn' ->] | [Hp' ->]]
  end.
  { wp_go. split; [done |]. split; [by destruct verbose |].
    destruct verbose;
      (match type of Hn' with
       | geti_reply ?d ?hh ?p < 0 => exists p, (geti_reply d hh p)
       end); (split; [find_event | exact Hn']). }
  wp_go.
  match goal with
  | |- context [delay_loop _ _ _ _ _ _ _ _ _ ?s] => set (cw_shift := s)
  end.
  destruct (Z.lt_ge_cases cw_shift 0) as [Hshift | Hshift].
  - destruct verbose; wp_go;
      (eapply wp_mono;
       [change (seqZ 0 7) with (0 :: seqZ 1 6);
        by apply delay_loop_bad_shift |]);
      intros r o [-> Ho]; (split; [done |]); (split; [by simpl |]);
      exists (format1 "awgs/{}/dio/mask/shift" awg), cw_shift;
      (split; [find_event | done]).
  - destruct verbose; wp_go;
      (eapply wp_mono; [by apply delay_loop_spec |]);
      intros r o (added & -> & Hsub & Hn); cbv beta iota; wp_go;
      (split;
       [ intros d Hd; apply elem_of_list_to_set in Hd;
         apply (λ H, elem_of_sublist _ _ _ H Hsub), elem_of_seqZ in Hd; lia
       | rewrite !captures_app; simpl; rewrite ?app_nil_r; simpl in Hn; lia ]).
Qed.

(** X13: the delay search of one channel either returns a set of delays
    between 0 and 6, after at least 7 and at most 49 captures, or it ends
    in [ValueError] because a register (valid index, strobe index or
    codeword shift) read a negative value; in that case it has written
    nothing to the instrument and has taken no capture. *)
Theorem find_valid_delays_outcome dev awg expected_sequence verbose h :
  match _find_valid_delays dev awg expected_sequence verbose h with
  | (Ret s, out) =>
      (∀ d, d ∈ s → 0 ≤ d ≤ 6) ∧ (7 ≤ length (captures out) ≤ 49)%nat
  | (Raise e, out) =>
      e = ValueError ∧ forallb passive out = true
      ∧ ∃ path v, EvGeti path v ∈ out ∧ v < 0
  | (OutOfFuel, _) => False
  end.
Proof.
  pose proof (find_valid_delays_spec dev awg expected_sequence verbose h) as H.
  apply wp_run in H as (r & o & -> & H). exact H.
Qed.

Lemma search_all_range dev verbose awgs_and_sequences : ∀ h sets o,
  search_all dev verbose awgs_and_sequences h = (Ret sets, o) →
  ∀ s d, s ∈ sets → d ∈ s → 0 ≤ d ≤ 6.
Proof.
  induction awgs_and_sequences as [| [awg sequence] rest IH];
    intros h sets o Hrun s d Hs Hd.
  - injection Hrun as <- <-. by apply elem_of_nil in Hs.
  - apply search_all_cons in Hrun as (s1 & o1 & sets' & o2 & H1 & H2 & -> & ->).
    apply elem_of_cons in Hs as [-> | Hs]; [| by eapply IH].
    pose proof (find_valid_delays_spec dev awg sequence verbose h) as H.
    apply wp_run in H as (r & o & Hrun & H). rewrite H1 in Hrun.
    injection Hrun as <- <-. by apply H.
Qed.

Lemma search_loop_inv dev verbose awgs_and_sequences : ∀ acc h r o,
  search_loop dev verbose awgs_and_sequences acc h = (Ret r, o) →
  match r with
  | Some l =>
      ∃ sets, search_all dev verbose awgs_and_sequences h = (Ret sets, o)
              ∧ Forall (λ s, s ≠ ∅) sets ∧ l = acc ++ sets
  | None =>
      ∃ pre awg sequence post sets o2,
        awgs_and_sequences = pre ++ (awg, sequence) :: post
        ∧ search_all dev verbose pre h = (Ret sets, o2)
        ∧ Forall (λ s, s ≠ ∅) sets
        ∧ (_find_valid_delays dev awg sequence verbose (h ++ o2)).1 = Ret ∅
  end.
Proof.
  induction awgs_and_sequences as [| [awg sequence] rest IH];
    intros acc h r o Hrun.
  - injection Hrun as <- <-. exists []. by rewrite app_nil_r.
  - cbn [search_loop] in Hrun. rewrite bind_run in Hrun.
    destruct (_find_valid_delays dev awg sequence verbose h)
      as [[s | e |] o1] eqn:H1; [| done | done].
    destruct (decide (s = ∅)) as [-> | Hne].
    + rewrite bool_decide_eq_true_2 in Hrun by done. cbn [negb] in Hrun.
      rewrite bind_run, vprint_run in Hrun. injection Hrun as <- <-.
      exists [], awg, sequence, rest, [], []. rewrite app_nil_r, H1.
      by repeat split.
    + rewrite bool_decide_eq_false_2 in Hrun by done. cbn [negb] in Hrun.
      destruct (search_loop dev verbose rest (acc ++ [s]) (h ++ o1))
        as [[r' | e |] o2] eqn:H2; [| done | done].
      injection Hrun as <- <-. apply IH in H2. destruct r' as [l |].
      * destruct H2 as (sets & Hall & Hne' & ->). exists (s :: sets).
        split; [| split; [by constructor | by rewrite <- app_assoc]].
        cbn [search_all]. rewrite bind_run, H1, bind_run, Hall. cbn.
        by rewrite app_nil_r.
      * destruct H2 as (pre & awg' & seq' & post & sets & o3 & -> & Hall & Hne'
                        & Hempty).
        exists ((awg, sequence) :: pre), awg', seq', post, (s :: sets), (o1 ++ o3).
        split; [done |]. split; [| split; [by constructor |]].
        -- cbn [search_all]. rewrite bind_run, H1, bind_run, Hall. cbn.
           by rewrite app_nil_r.
        -- by rewrite app_assoc.
Qed.

(** X14: whenever [calibrate_dio_protocol] returns, one of the three cases
    of the calibration applies: it returns [False] only after a failed
    symmetry check or an empty Valid-Delay Set, and [True] only after a
    delay [d] common to all channels, the largest such, has been applied;
    that delay lies between 0 and 6, so it is never clamped. *)
Theorem calibrate_returns_inv dev fuel awgs_and_sequences verbose h b out :
  calibrate_dio_protocol dev fuel awgs_and_sequences verbose h = (Ret b, out) →
  (b = false ∧ calibrated dev fuel awgs_and_sequences verbose h false None)
  ∨ (b = true
     ∧ ∃ d, calibrated dev fuel awgs_and_sequences verbose h true (Some d)
            ∧ 0 ≤ d ≤ 6 ∧ clamp_warnings d = []).
Proof.
  unfold calibrate_dio_protocol. intros Hrun.
  rewrite bind_run, vprint_run, bind_run in Hrun.
  destruct (_ensure_symmetric_strobe dev fuel verbose
              (h ++ (if verbose
                     then [EvPrint "INFO   : Calibrating DIO delays" []]
                     else [])))
    as [[[] | e |] o1] eqn:Hsym; [| | done | done]; cbn [negb] in Hrun.
  - rewrite bind_run, vprint_run, bind_run in Hrun.
    match type of Hrun with
    | context [search_loop dev verbose awgs_and_sequences [] ?hist] =>
        destruct (search_loop dev verbose awgs_and_sequences [] hist)
          as [[[l |] | e |] o2] eqn:Hloop; [| | done | done]
    end; apply search_loop_inv in Hloop.
    + destruct Hloop as (sets & Hall & Hne & ->). cbn [app] in Hrun.
      destruct sets as [| s0 sets']; [done |].
      destruct (py_set_intersection_spec (s0 :: sets') ltac:(done))
        as (common & Hcap & Hcommon).
      rewrite Hcap, bind_lift_ret in Hrun.
      destruct (decide (common = ∅)) as [-> | Hcne].
      { by rewrite py_max_empty, bind_run in Hrun. }
      destruct (py_max_spec common Hcne) as (d & Hmax & Hd & Hle).
      rewrite Hmax, bind_lift_ret in Hrun.
      rewrite bind_run, vprint_run, bind_run, vprint_run, bind_run in Hrun.
      match type of Hrun with
      | context [for_each awgs_and_sequences ?body ?hist] =>
          destruct (for_each awgs_and_sequences body hist)
            as [[[] | e |] o3]; [| done | done]
      end.
      injection Hrun as <- <-. right. split; [done |]. exists d.
      assert (Hrange : 0 ≤ d ≤ 6).
      { eapply (search_all_range _ _ _ _ _ _ Hall s0); [by left |].
        apply Hcommon; [done | by left]. }
      split; [| split; [done |]].
      * eapply (calibrated_common _ _ _ _ _ o1 (s0 :: sets') o2 d);
          [exact Hsym | exact Hall | done | done | |].
        -- intros s Hs. by apply Hcommon.
        -- intros x Hx. apply Hle. by apply Hcommon.
      * unfold clamp_warnings.
        destruct (Z.ltb_spec d 0); [lia |].
        by destruct (Z.ltb_spec 6 d); [lia |].
    + destruct Hloop as (pre & awg & sequence & post & sets & o3 & -> & Hall
                         & Hne & Hempty).
      injection Hrun as <- <-. left. split; [done |].
      by eapply (calibrated_no_delay _ _ _ _ _ o1 pre awg sequence post sets o3).
  - rewrite bind_run, vprint_run in Hrun. injection Hrun as <- <-.
    left. split; [done |]. by eapply calibrated_asymmetric.
Qed.

Lemma calibrate_returns_inv_witness :
  (true = false
   ∧ calibrated (sim_device windows_overlap) 6 two_channels false [] false None)
  ∨ (true = true
     ∧ ∃ d, calibrated (sim_device windows_overlap) 6 two_channels false []
              true (Some d)
            ∧ 0 ≤ d ≤ 6 ∧ clamp_warnings d = []).
Proof.
  apply (calibrate_returns_inv (sim_device windows_overlap) 6 two_channels
           false [] true
           (calibrate_dio_protocol (sim_device windows_overlap) 6 two_channels
              false []).2).
  apply run_eta. vm_compute. reflexivity.
Defined.

(** ** More on the recovery of the strobe *)

Definition is_print (e : event) : bool :=
  match e with
  | EvPrint _ _ => true
  | _ => false
  end.

(** X15: one recovery, apart from what it prints: each AWG is read and
    then disabled, the reference clock is switched to internal and back to
    external with 5 seconds of waiting after each switch, and every AWG
    gets back the enable flag that was read from it. *)
Theorem resync_restores dev verbose h :
  ∃ v0 v1 v2 v3,
    (resync dev verbose h).1 = Ret ()
    ∧ List.filter (λ e, negb (is_print e)) (resync dev verbose h).2
      = [EvGeti "awgs/0/enable" v0; EvSeti "awgs/0/enable" 0;
         EvGeti "awgs/1/enable" v1; EvSeti "awgs/1/enable" 0;
         EvGeti "awgs/2/enable" v2; EvSeti "awgs/2/enable" 0;
         EvGeti "awgs/3/enable" v3; EvSeti "awgs/3/enable" 0;
         EvSetParam "system_clocks_referenceclock_source" 0; EvSleep 5;
         EvSetParam "system_clocks_referenceclock_source" 1; EvSleep 5;
         EvSeti "awgs/0/enable" v0; EvSeti "awgs/1/enable" v1;
         EvSeti "awgs/2/enable" v2; EvSeti "awgs/3/enable" v3].
Proof.
  destruct verbose; eexists _, _, _, _; (split; [reflexivity |]);
    cbv; reflexivity.
Qed.
